(** * A to-do list screen: task collection, edit draft and persistence

    Shallow embedding of the React Native component [App] of [src/App.js]
    (and of its animated variant), together with the parts of the JavaScript
    platform the component calls: [String.prototype.trim], [Date.now],
    [Number.prototype.toString], [JSON.stringify], [JSON.parse] and the
    [AsyncStorage] key-value store.

    JavaScript strings are sequences of UTF-16 code units; a code unit is
    modelled as an [N] below [65536]. *)

From Stdlib Require Import ZArith NArith Ascii String DecimalString DecimalZ.
From stdpp Require Import base option list gmap.

Set Warnings "-register-all".

Local Open Scope N_scope.

(** ** Strings *)

Abbreviation code_unit := N (only parsing).
Abbreviation jsstring := (list N) (only parsing).

(** An ASCII literal of the source as a string of code units. *)
Definition str (s : string) : jsstring :=
  N_of_ascii <$> list_ascii_of_string s.

(** A JSON text written with apostrophes where it has double quotes. *)
Definition json_text (s : string) : jsstring :=
  (λ c, if c =? 39 then 34 else c) <$> str s.

(** Every code unit of a string fits 16 bits. *)
Definition well_formed (s : jsstring) : Prop := Forall (λ c, c < 65536) s.

(** [ToBoolean] of a string: the empty string is the only falsy one. *)
Definition truthy (s : jsstring) : bool :=
  match s with
  | [] => false
  | _ :: _ => true
  end.

(** The code points [String.prototype.trim] strips: ECMAScript's WhiteSpace
    (TAB, VT, FF, ZWNBSP and the space separators) and LineTerminator
    (LF, CR, LS, PS). *)
Definition is_white_space (c : code_unit) : bool :=
  (c =? 0x0009) || (c =? 0x000A) || (c =? 0x000B) || (c =? 0x000C)
  || (c =? 0x000D) || (c =? 0x0020) || (c =? 0x00A0) || (c =? 0x1680)
  || ((0x2000 <=? c) && (c <=? 0x200A))
  || (c =? 0x2028) || (c =? 0x2029) || (c =? 0x202F) || (c =? 0x205F)
  || (c =? 0x3000) || (c =? 0xFEFF).

Fixpoint trimStart (s : jsstring) : jsstring :=
  match s with
  | c :: s' => if is_white_space c then trimStart s' else s
  | [] => []
  end.

Definition trimEnd (s : jsstring) : jsstring := rev (trimStart (rev s)).

Definition trim (s : jsstring) : jsstring := trimEnd (trimStart s).

(** [Date.now().toString()]: the clock reading is an integral number of
    milliseconds (of magnitude at most 8.64e15), which
    [Number.prototype.toString] renders as its decimal numeral. *)
Definition toString (n : Z) : jsstring :=
  str (NilEmpty.string_of_int (Z.to_int n)).

(** ** Tasks and the component state *)

Record Task := mkTask {
  id : jsstring;
  text : jsstring;
  checked : bool;
}.

#[global] Instance Task_eq_dec : EqDecision Task.
Proof. solve_decision. Defined.

(** The four [useState] slots of [App]. *)
Record State := mkState {
  task : jsstring;
  tasks : list Task;
  modalVisible : bool;
  selectedTask : option Task;
}.

(** [useState('')], [useState([])], [useState(false)], [useState(null)]. *)
Definition initial : State :=
  {| task := []; tasks := []; modalVisible := false; selectedTask := None |}.

Definition setTask (v : jsstring) (st : State) : State :=
  {| task := v; tasks := tasks st;
     modalVisible := modalVisible st; selectedTask := selectedTask st |}.

(** [setTasks] in its updater form, [setTasks((prevTasks) => ...)]; a plain
    [setTasks(v)] computed from the rendered [tasks] is the same update when
    a handler runs on the latest render. *)
Definition setTasks (f : list Task → list Task) (st : State) : State :=
  {| task := task st; tasks := f (tasks st);
     modalVisible := modalVisible st; selectedTask := selectedTask st |}.

Definition setModalVisible (v : bool) (st : State) : State :=
  {| task := task st; tasks := tasks st;
     modalVisible := v; selectedTask := selectedTask st |}.

Definition setSelectedTask (f : option Task → option Task) (st : State) : State :=
  {| task := task st; tasks := tasks st;
     modalVisible := modalVisible st; selectedTask := f (selectedTask st) |}.

(** ** Event handlers *)

(** [addTask]; [now] is what [Date.now()] returns during the call. *)
Definition addTask (now : Z) (st : State) : State :=
  if truthy (trim (task st)) then
    let newTask := {| id := toString now; text := task st; checked := false |} in
    setTask [] (setTasks (λ _, tasks st ++ [newTask]) st)
  else st.

Definition openTaskModal (task : Task) (st : State) : State :=
  setModalVisible true (setSelectedTask (λ _, Some task) st).

Definition deleteTask (taskId : jsstring) (st : State) : State :=
  setTasks (λ _, filter (λ item, id item ≠ taskId) (tasks st)) st.

Definition saveTaskEdit (editedTask : Task) (st : State) : State :=
  setModalVisible false
    (setTasks (λ prevTasks,
       (λ task, if decide (id task = id editedTask)
                then {| id := id task; text := text editedTask;
                        checked := checked task |}
                else task) <$> prevTasks) st).

Definition checkOff (taskId : jsstring) (st : State) : State :=
  setTasks (λ prevTasks,
    (λ task, if decide (id task = taskId)
             then {| id := id task; text := text task;
                     checked := negb (checked task) |}
             else task) <$> prevTasks) st.

(** The inline handlers of the JSX tree. *)

(** [onChangeText={(text) => setTask(text)}] of the add input. *)
Definition onChangeText (text : jsstring) (st : State) : State :=
  setTask text st.

(** [onChangeText] of the modal input,
    [setSelectedTask((prev) => ({ ...prev, text }))]. The input is rendered
    under [selectedTask && ...], so [prev] is a task whenever it fires. *)
Definition onChangeModalText (text : jsstring) (st : State) : State :=
  setSelectedTask (λ prev,
    (λ prev, {| id := id prev; text := text; checked := checked prev |})
      <$> prev) st.

(** [onPress={() => saveTaskEdit(selectedTask)}], rendered under
    [selectedTask && ...] as well. *)
Definition onPressSave (st : State) : State :=
  match selectedTask st with
  | Some draft => saveTaskEdit draft st
  | None => st
  end.

(** [onPress={() => setModalVisible(false)}]. *)
Definition onPressCancel (st : State) : State :=
  setModalVisible false st.

(** ** JSON values

    What [JSON.parse] can return. An object lists its own properties in
    property-key order. A number is kept as its numeral: the rounding of a
    numeral to a binary64 and back is not modelled, and no field of a task
    is a number. *)

Inductive value :=
| JNull
| JBool (b : bool)
| JNumber (numeral : jsstring)
| JString (s : jsstring)
| JArray (elements : list value)
| JObject (properties : list (jsstring * value)).

(** *** [JSON.stringify] *)

Definition hex_digit (n : N) : code_unit :=
  if n <? 10 then 48 + n else 87 + n.

(** [UnicodeEscape]: a backslash, [u] and four lowercase hexadecimal digits. *)
Definition UnicodeEscape (c : code_unit) : jsstring :=
  [92; 117; hex_digit (c / 4096); hex_digit (c / 256 mod 16);
   hex_digit (c / 16 mod 16); hex_digit (c mod 16)].

(** The single-character escapes of [QuoteJSONString]. *)
Definition short_escape (c : code_unit) : option code_unit :=
  if c =? 0x08 then Some 98          (* backslash b *)
  else if c =? 0x09 then Some 116    (* backslash t *)
  else if c =? 0x0A then Some 110    (* backslash n *)
  else if c =? 0x0C then Some 102    (* backslash f *)
  else if c =? 0x0D then Some 114    (* backslash r *)
  else if c =? 0x22 then Some 34     (* a quote *)
  else if c =? 0x5C then Some 92     (* a backslash *)
  else None.

Definition is_leading_surrogate (c : code_unit) : bool :=
  (0xD800 <=? c) && (c <=? 0xDBFF).

Definition is_trailing_surrogate (c : code_unit) : bool :=
  (0xDC00 <=? c) && (c <=? 0xDFFF).

(** The body of [QuoteJSONString]: control characters and lone surrogates
    are escaped, a surrogate pair and every other code unit are copied. *)
Fixpoint quote_chars (s : jsstring) : jsstring :=
  match s with
  | [] => []
  | c :: s' =>
    match short_escape c with
    | Some e => 92 :: e :: quote_chars s'
    | None =>
      if c <? 0x20 then UnicodeEscape c ++ quote_chars s'
      else if is_leading_surrogate c then
        match s' with
        | d :: s'' =>
          if is_trailing_surrogate d then c :: d :: quote_chars s''
          else UnicodeEscape c ++ quote_chars s'
        | [] => UnicodeEscape c
        end
      else if is_trailing_surrogate c then UnicodeEscape c ++ quote_chars s'
      else c :: quote_chars s'
    end
  end.

Definition QuoteJSONString (s : jsstring) : jsstring :=
  34 :: quote_chars s ++ [34].

Fixpoint join_comma (parts : list jsstring) : jsstring :=
  match parts with
  | [] => []
  | [p] => p
  | p :: parts' => p ++ 44 :: join_comma parts'
  end.

(** [JSON.stringify(v)] with no replacer and no indentation. *)
Fixpoint stringify (v : value) : jsstring :=
  match v with
  | JNull => str "null"
  | JBool true => str "true"
  | JBool false => str "false"
  | JNumber numeral => numeral
  | JString s => QuoteJSONString s
  | JArray elements =>
    91 :: join_comma (map stringify elements) ++ [93]
  | JObject properties =>
    123 :: join_comma
             (map (λ p, QuoteJSONString (fst p) ++ 58 :: stringify (snd p))
                properties) ++ [125]
  end.

(** *** [JSON.parse] *)

Inductive error :=
| SyntaxError
| StorageError.

Inductive result (A : Type) :=
| Parsed (a : A) (rest : jsstring)
| Malformed
| OutOfFuel.
Arguments Parsed {A} a rest.
Arguments Malformed {A}.
Arguments OutOfFuel {A}.

(** JSON white space: space, tab, line feed, carriage return. *)
Definition is_json_ws (c : code_unit) : bool :=
  (c =? 0x20) || (c =? 0x09) || (c =? 0x0A) || (c =? 0x0D).

Fixpoint skip_ws (s : jsstring) : jsstring :=
  match s with
  | c :: s' => if is_json_ws c then skip_ws s' else s
  | [] => []
  end.

Definition hex_value (c : code_unit) : option N :=
  if (48 <=? c) && (c <=? 57) then Some (c - 48)
  else if (97 <=? c) && (c <=? 102) then Some (c - 87)
  else if (65 <=? c) && (c <=? 70) then Some (c - 55)
  else None.

Definition hex4 (h1 h2 h3 h4 : code_unit) : option code_unit :=
  a ← hex_value h1; b ← hex_value h2; c ← hex_value h3; d ← hex_value h4;
  Some (a * 4096 + b * 256 + c * 16 + d).

Definition unescape (e : code_unit) : option code_unit :=
  if e =? 34 then Some 0x22          (* a quote *)
  else if e =? 92 then Some 0x5C     (* a backslash *)
  else if e =? 47 then Some 0x2F     (* backslash / *)
  else if e =? 98 then Some 0x08     (* backslash b *)
  else if e =? 102 then Some 0x0C    (* backslash f *)
  else if e =? 110 then Some 0x0A    (* backslash n *)
  else if e =? 114 then Some 0x0D    (* backslash r *)
  else if e =? 116 then Some 0x09    (* backslash t *)
  else None.

(** The characters of a string literal after its opening quote, up to and
    including the closing quote. *)
Fixpoint parse_chars (s : jsstring) : option (jsstring * jsstring) :=
  match s with
  | [] => None
  | c :: s' =>
    if c =? 34 then Some ([], s')
    else if c =? 92 then
      match s' with
      | e :: s'' =>
        if e =? 117 then
          match s'' with
          | h1 :: h2 :: h3 :: h4 :: s3 =>
            match hex4 h1 h2 h3 h4, parse_chars s3 with
            | Some u, Some (r, rest) => Some (u :: r, rest)
            | _, _ => None
            end
          | _ => None
          end
        else
          match unescape e, parse_chars s'' with
          | Some x, Some (r, rest) => Some (x :: r, rest)
          | _, _ => None
          end
      | [] => None
      end
    else if c <? 0x20 then None
    else
      match parse_chars s' with
      | Some (r, rest) => Some (c :: r, rest)
      | None => None
      end
  end.

Definition is_digit (c : code_unit) : bool := (48 <=? c) && (c <=? 57).

Fixpoint span_digits (s : jsstring) : jsstring * jsstring :=
  match s with
  | c :: s' =>
    if is_digit c then let (ds, rest) := span_digits s' in (c :: ds, rest)
    else ([], s)
  | [] => ([], [])
  end.

(** The JSON number grammar: an optional minus, an integer part without a
    superfluous leading zero, an optional fraction, an optional exponent. *)
Definition parse_number (s : jsstring) : option (jsstring * jsstring) :=
  let (sign, s1) :=
    match s with
    | c :: s' => if c =? 45 then ([45], s') else ([], s)
    | [] => ([], s)
    end in
  '(int, s2) ←
    match s1 with
    | c :: s' =>
      if c =? 48 then Some ([48], s')
      else if is_digit c then Some (span_digits s1)
      else None
    | [] => None
    end;
  '(frac, s3) ←
    match s2 with
    | c :: s' =>
      if c =? 46 then
        let (ds, rest) := span_digits s' in
        if truthy ds then Some (46 :: ds, rest) else None
      else Some ([], s2)
    | [] => Some ([], s2)
    end;
  '(exp, s4) ←
    match s3 with
    | c :: s' =>
      if (c =? 101) || (c =? 69) then
        let (esign, s'') :=
          match s' with
          | d :: t => if (d =? 43) || (d =? 45) then ([d], t) else ([], s')
          | [] => ([], s')
          end in
        let (ds, rest) := span_digits s'' in
        if truthy ds then Some (c :: esign ++ ds, rest) else None
      else Some ([], s3)
    | [] => Some ([], s3)
    end;
  Some (sign ++ int ++ frac ++ exp, s4).

Fixpoint strip_prefix (p s : jsstring) : option jsstring :=
  match p, s with
  | [], _ => Some s
  | a :: p', b :: s' => if a =? b then strip_prefix p' s' else None
  | _ :: _, [] => None
  end.

(** Property keys that are array indices: canonical numerals below
    [2^32 - 1]. An object lists them first, in ascending order. *)
Definition array_index (k : jsstring) : option N :=
  match k with
  | [] => None
  | c :: k' =>
    if forallb is_digit k && ((negb (c =? 48)) || negb (truthy k')) then
      let n := fold_left (λ acc d, 10 * acc + (d - 48)) k 0 in
      if n <? 4294967295 then Some n else None
    else None
  end.

Fixpoint has_key (k : jsstring) (ps : list (jsstring * value)) : bool :=
  match ps with
  | (k', _) :: ps' => if decide (k' = k) then true else has_key k ps'
  | [] => false
  end.

Fixpoint replace_property (k : jsstring) (v : value)
    (ps : list (jsstring * value)) : list (jsstring * value) :=
  match ps with
  | (k', v') :: ps' =>
    if decide (k' = k) then (k', v) :: ps'
    else (k', v') :: replace_property k v ps'
  | [] => []
  end.

Fixpoint insert_index (i : N) (k : jsstring) (v : value)
    (ps : list (jsstring * value)) : list (jsstring * value) :=
  match ps with
  | (k', v') :: ps' =>
    match array_index k' with
    | Some j =>
      if j <? i then (k', v') :: insert_index i k v ps' else (k, v) :: ps
    | None => (k, v) :: ps
    end
  | [] => [(k, v)]
  end.

(** [CreateDataProperty] on an ordinary object: an existing key keeps its
    place and takes the new value (the last duplicate of a JSON text wins);
    a new key goes after the others, an array index among the indices. *)
Definition CreateDataProperty (k : jsstring) (v : value)
    (ps : list (jsstring * value)) : list (jsstring * value) :=
  if has_key k ps then replace_property k v ps
  else
    match array_index k with
    | Some i => insert_index i k v ps
    | None => ps ++ [(k, v)]
    end.

(** Recursive descent over the JSON grammar. Every call spends one unit of
    [fuel]; [parse_elements] reads the elements of an array after its
    opening bracket, [parse_members] the members of an object after its
    opening brace. *)
Fixpoint parse_value (fuel : nat) (s : jsstring) : result value :=
  match fuel with
  | O => OutOfFuel
  | S fuel =>
    match skip_ws s with
    | [] => Malformed
    | c :: s' =>
      if c =? 123 then
        match skip_ws s' with
        | d :: s'' =>
          if d =? 125 then Parsed (JObject []) s''
          else parse_members fuel [] s'
        | [] => Malformed
        end
      else if c =? 91 then
        match skip_ws s' with
        | d :: s'' =>
          if d =? 93 then Parsed (JArray []) s''
          else parse_elements fuel [] s'
        | [] => Malformed
        end
      else if c =? 34 then
        match parse_chars s' with
        | Some (r, rest) => Parsed (JString r) rest
        | None => Malformed
        end
      else if c =? 116 then
        match strip_prefix (str "true") (c :: s') with
        | Some rest => Parsed (JBool true) rest
        | None => Malformed
        end
      else if c =? 102 then
        match strip_prefix (str "false") (c :: s') with
        | Some rest => Parsed (JBool false) rest
        | None => Malformed
        end
      else if c =? 110 then
        match strip_prefix (str "null") (c :: s') with
        | Some rest => Parsed JNull rest
        | None => Malformed
        end
      else
        match parse_number (c :: s') with
        | Some (numeral, rest) => Parsed (JNumber numeral) rest
        | None => Malformed
        end
    end
  end
with parse_elements (fuel : nat) (acc : list value) (s : jsstring)
    : result value :=
  match fuel with
  | O => OutOfFuel
  | S fuel =>
    match parse_value fuel s with
    | Parsed v rest =>
      match skip_ws rest with
      | c :: rest' =>
        if c =? 44 then parse_elements fuel (v :: acc) rest'
        else if c =? 93 then Parsed (JArray (rev (v :: acc))) rest'
        else Malformed
      | [] => Malformed
      end
    | Malformed => Malformed
    | OutOfFuel => OutOfFuel
    end
  end
with parse_members (fuel : nat) (acc : list (jsstring * value))
    (s : jsstring) : result value :=
  match fuel with
  | O => OutOfFuel
  | S fuel =>
    match skip_ws s with
    | q :: s1 =>
      if q =? 34 then
        match parse_chars s1 with
        | Some (k, s2) =>
          match skip_ws s2 with
          | colon :: s3 =>
            if colon =? 58 then
              match parse_value fuel s3 with
              | Parsed v rest =>
                match skip_ws rest with
                | c :: rest' =>
                  if c =? 44 then
                    parse_members fuel (CreateDataProperty k v acc) rest'
                  else if c =? 125 then
                    Parsed (JObject (CreateDataProperty k v acc)) rest'
                  else Malformed
                | [] => Malformed
                end
              | Malformed => Malformed
              | OutOfFuel => OutOfFuel
              end
            else Malformed
          | [] => Malformed
          end
        | None => Malformed
        end
      else Malformed
    | [] => Malformed
    end
  end.

(** [JSON.parse(text)]: one value, surrounded by white space only; anything
    else throws a [SyntaxError]. The fuel handed to [parse_value] is never
    used up (see [parse_value_fuel]). *)
Definition JSON_parse (text : jsstring) : error + value :=
  match parse_value (2 * length text + 1) text with
  | Parsed v rest =>
    match skip_ws rest with
    | [] => inr v
    | _ :: _ => inl SyntaxError
    end
  | Malformed => inl SyntaxError
  | OutOfFuel => inl SyntaxError
  end.

(** ** Persistence

    [AsyncStorage] is a string-to-string store whose calls settle later and
    may be rejected by the native side. The asynchronous functions of the
    component are computations over a [World]: the store, the JavaScript
    value the [tasks] slot holds, and what was sent to [console.error]. *)

Record AsyncStorage := mkStorage {
  items : gmap (list N) (list N);
  failing : bool;
}.

Record World := mkWorld {
  storage : AsyncStorage;
  tasksValue : value;
  console : list (jsstring * error);
}.

Inductive settled (A : Type) :=
| Fulfilled (a : A)
| Rejected (e : error).
Arguments Fulfilled {A} a.
Arguments Rejected {A} e.

Definition M (A : Type) : Type := World → settled A * World.

Definition ret {A} (a : A) : M A := λ w, (Fulfilled a, w).

Definition bind {A B} (m : M A) (k : A → M B) : M B :=
  λ w, match m w with
       | (Fulfilled a, w') => k a w'
       | (Rejected e, w') => (Rejected e, w')
       end.

Definition throw {A} (e : error) : M A := λ w, (Rejected e, w).

(** [try { body } catch (error) { handler }]: what the body did to the world
    before it threw stays done. *)
Definition try_catch {A} (body : M A) (handler : error → M A) : M A :=
  λ w, match body w with
       | (Fulfilled a, w') => (Fulfilled a, w')
       | (Rejected e, w') => handler e w'
       end.

Notation "'let*' x := m 'in' k" := (bind m (λ x, k))
  (at level 10, x name, m at level 100, k at level 200).

Definition getItem (key : jsstring) : M (option jsstring) :=
  λ w, if failing (storage w) then (Rejected StorageError, w)
       else (Fulfilled (items (storage w) !! key), w).

Definition setItem (key v : jsstring) : M unit :=
  λ w, if failing (storage w) then (Rejected StorageError, w)
       else (Fulfilled tt,
             {| storage := {| items := <[key := v]> (items (storage w));
                              failing := failing (storage w) |};
                tasksValue := tasksValue w; console := console w |}).

(** [JSON.parse] as a call that may throw. *)
Definition parse (text : jsstring) : M value :=
  match JSON_parse text with
  | inr v => ret v
  | inl e => throw e
  end.

(** [setTasks(v)] on the slot as the asynchronous functions see it. *)
Definition setTasksValue (v : value) : M unit :=
  λ w, (Fulfilled tt,
        {| storage := storage w; tasksValue := v; console := console w |}).

Definition console_error (message : jsstring) (e : error) : M unit :=
  λ w, (Fulfilled tt,
        {| storage := storage w; tasksValue := tasksValue w;
           console := console w ++ [(message, e)] |}).

Definition saveTasksToStorage (tasks : value) : M unit :=
  try_catch
    (setItem (str "tasks") (stringify tasks))
    (λ error, console_error (str "Error saving tasks to AsyncStorage:") error).

Definition loadTasksFromStorage : M unit :=
  try_catch
    (let* storedTasks := getItem (str "tasks") in
     match storedTasks with
     | Some storedTasks =>
       if truthy storedTasks then
         let* parsed := parse storedTasks in setTasksValue parsed
       else ret tt
     | None => ret tt
     end)
    (λ error, console_error (str "Error loading tasks from AsyncStorage:") error).

(** The JavaScript value of a task and of a collection. *)
Definition encode (t : Task) : value :=
  JObject [(str "id", JString (id t)); (str "text", JString (text t));
           (str "checked", JBool (checked t))].

Definition encode_tasks (ts : list Task) : value := JArray (encode <$> ts).

(** A component that has just mounted on a given store: [useState([])]. *)
Definition fresh (s : AsyncStorage) : World :=
  {| storage := s; tasksValue := JArray []; console := [] |}.

Definition stored (content : option jsstring) : AsyncStorage :=
  {| items := match content with
              | Some s => {[ str "tasks" := s ]}
              | None => ∅
              end;
     failing := false |}.

(** ** Sequences of operations

    The operations of the task collection, each carried out by the handler
    the user interface wires to it. *)

Inductive operation :=
| Create (now : Z) (text : jsstring)
| Toggle (taskId : jsstring)
| Delete (taskId : jsstring)
| SaveEdit (taskId : jsstring) (newText : jsstring).

(** [saveTaskEdit] reads the [id] and the [text] of the edited task only. *)
Definition perform (st : State) (o : operation) : State :=
  match o with
  | Create now text => addTask now (onChangeText text st)
  | Toggle taskId => checkOff taskId st
  | Delete taskId => deleteTask taskId st
  | SaveEdit taskId newText =>
    saveTaskEdit {| id := taskId; text := newText; checked := false |} st
  end.

Definition run (ops : list operation) : State := fold_left perform ops initial.

(** The clock readings of the Creates of a sequence, and the ids of the
    tasks its Creates make, in the order of the sequence. *)
Definition readings (ops : list operation) : list Z :=
  omap (λ o, match o with Create now _ => Some now | _ => None end) ops.

Definition created (ops : list operation) : list jsstring :=
  omap (λ o, match o with
             | Create now text =>
               if truthy (trim text) then Some (toString now) else None
             | _ => None
             end) ops.

(** ** The animated variant

    The second version of the component gives a task a fourth field,
    [hasAnimated], which [addTask] sets to [false] and no handler reads or
    changes; its handlers are otherwise those of [App]. *)

Module Animated.

Record Task := mkTask {
  id : jsstring;
  text : jsstring;
  checked : bool;
  hasAnimated : bool;
}.

Record State := mkState {
  task : jsstring;
  tasks : list Task;
  modalVisible : bool;
  selectedTask : option Task;
}.

Definition setTask (v : jsstring) (st : State) : State :=
  {| task := v; tasks := tasks st;
     modalVisible := modalVisible st; selectedTask := selectedTask st |}.

Definition setTasks (f : list Task → list Task) (st : State) : State :=
  {| task := task st; tasks := f (tasks st);
     modalVisible := modalVisible st; selectedTask := selectedTask st |}.

Definition setModalVisible (v : bool) (st : State) : State :=
  {| task := task st; tasks := tasks st;
     modalVisible := v; selectedTask := selectedTask st |}.

Definition addTask (now : Z) (st : State) : State :=
  if truthy (trim (task st)) then
    let newTask := {| id := toString now; text := task st;
                      checked := false; hasAnimated := false |} in
    setTask [] (setTasks (λ _, tasks st ++ [newTask]) st)
  else st.

Definition deleteTask (taskId : jsstring) (st : State) : State :=
  setTasks (λ prevTasks, filter (λ task, id task ≠ taskId) prevTasks) st.

Definition saveTaskEdit (editedTask : Task) (st : State) : State :=
  setModalVisible false
    (setTasks (λ prevTasks,
       (λ task, if decide (id task = id editedTask)
                then {| id := id task; text := text editedTask;
                        checked := checked task;
                        hasAnimated := hasAnimated task |}
                else task) <$> prevTasks) st).

Definition checkOff (taskId : jsstring) (st : State) : State :=
  setTasks (λ prevTasks,
    (λ task, if decide (id task = taskId)
             then {| id := id task; text := text task;
                     checked := negb (checked task);
                     hasAnimated := hasAnimated task |}
             else task) <$> prevTasks) st.

Definition encode (t : Task) : value :=
  JObject [(str "id", JString (id t)); (str "text", JString (text t));
           (str "checked", JBool (checked t));
           (str "hasAnimated", JBool (hasAnimated t))].

Definition encode_tasks (ts : list Task) : value := JArray (encode <$> ts).

End Animated.

(** A task of the animated variant without its fourth field. *)
Definition plain (t : Animated.Task) : Task :=
  {| id := Animated.id t; text := Animated.text t;
     checked := Animated.checked t |}.

Definition plain_state (st : Animated.State) : State :=
  {| task := Animated.task st; tasks := plain <$> Animated.tasks st;
     modalVisible := Animated.modalVisible st;
     selectedTask := plain <$> Animated.selectedTask st |}.

(** ** Predicates of the statements below *)

(** The text [stringify] writes for one member of an object. *)
Definition member_text (p : jsstring * value) : jsstring :=
  QuoteJSONString (fst p) ++ 58 :: stringify (snd p).

(** Values that [JSON.parse] gives back from their [JSON.stringify] text as
    they are: no number, strings of 16-bit code units, and objects whose
    keys are distinct and none an array index. *)
Fixpoint canonical (v : value) : bool :=
  match v with
  | JNull | JBool _ => true
  | JNumber _ => false
  | JString s => forallb (λ c, c <? 65536) s
  | JArray elements => forallb canonical elements
  | JObject properties =>
    forallb (λ p, forallb (λ c, c <? 65536) (fst p)
                  && bool_decide (array_index (fst p) = None)
                  && canonical (snd p)) properties
    && bool_decide (NoDup (fst <$> properties))
  end.

Definition member_ok (p : jsstring * value) : Prop :=
  well_formed (fst p) ∧ array_index (fst p) = None ∧ canonical (snd p) = true.

(** A parser call on [s] that did not run out of fuel and left no more
    input than it was given. *)
Definition within (s : jsstring) (r : result value) : Prop :=
  r ≠ OutOfFuel ∧ ∀ v rest, r = Parsed v rest → (length rest ≤ length s)%nat.

(** A parser call that, unless it ran out of fuel, read [v] and left
    [rest]. *)
Definition agrees (r : result value) (v : value) (rest : jsstring) : Prop :=
  r = OutOfFuel ∨ r = Parsed v rest.

(** ** The save effect

    [useEffect(() => { saveTasksToStorage(tasks); }, [tasks])] runs after
    every render in which the [tasks] slot holds another array than in the
    render before. [addTask] calls [setTasks] only inside its [if];
    [deleteTask], [saveTaskEdit] and [checkOff] always call it, and always
    with an array they have just built ([filter], [map], a spread), so each
    of these calls is followed by one run of the effect. A session is a
    mounted component with the store it writes to and the console. *)

Record Session := mkSession {
  ui : State;
  store : AsyncStorage;
  log : list (jsstring * error);
}.

Definition saveEffect (s : Session) : Session :=
  let w := snd (saveTasksToStorage (encode_tasks (tasks (ui s)))
                  {| storage := store s;
                     tasksValue := encode_tasks (tasks (ui s));
                     console := log s |}) in
  {| ui := ui s; store := storage w; log := console w |}.

Definition callsSetTasks (o : operation) : bool :=
  match o with
  | Create _ input => truthy (trim input)
  | Toggle _ | Delete _ | SaveEdit _ _ => true
  end.

Definition dispatch (s : Session) (o : operation) : Session :=
  let s' := {| ui := perform (ui s) o; store := store s; log := log s |} in
  if callsSetTasks o then saveEffect s' else s'.

Definition session (ops : list operation) (s : Session) : Session :=
  fold_left dispatch ops s.

(** The store holds the text of the collection on screen. *)
Definition synced (s : Session) : Prop :=
  items (store s) !! str "tasks"
  = Some (stringify (encode_tasks (tasks (ui s)))).

(** ** The entry animation of the animated variant

    [animatedRefs] is a [Map] from task ids to [true]. When an item mounts,
    its effect starts the entry animation unless the id is marked, in which
    case it sets opacity and scale to their final value at once; the
    animation's completion callback marks the id. *)

Module AnimatedTaskItem.

Definition markAsAnimated (taskId : jsstring) (animatedRefs : gmap (list N) bool)
    : gmap (list N) bool :=
  <[taskId := true]> animatedRefs.

Inductive entry :=
| Animate
| Settle.

(** [if (!animatedRefs.current.get(task.id)) { ...start... } else { ...setValue(1)... }] *)
Definition onMount (taskId : jsstring) (animatedRefs : gmap (list N) bool) : entry :=
  match animatedRefs !! taskId with
  | Some true => Settle
  | Some false | None => Animate
  end.

(** What happens to the marks over time: an entry animation completes, or
    an item mounts. *)
Inductive event :=
| Completed (taskId : jsstring)
| Mounted (taskId : jsstring).

Definition react (animatedRefs : gmap (list N) bool) (e : event)
    : gmap (list N) bool :=
  match e with
  | Completed taskId => markAsAnimated taskId animatedRefs
  | Mounted _ => animatedRefs
  end.

End AnimatedTaskItem.

(** The operations of the collection in the animated variant. *)
Definition Animated_perform (st : Animated.State) (o : operation)
    : Animated.State :=
  match o with
  | Create now input => Animated.addTask now (Animated.setTask input st)
  | Toggle taskId => Animated.checkOff taskId st
  | Delete taskId => Animated.deleteTask taskId st
  | SaveEdit taskId newText =>
    Animated.saveTaskEdit
      {| Animated.id := taskId; Animated.text := newText;
         Animated.checked := false; Animated.hasAnimated := false |} st
  end.

Definition Animated_initial : Animated.State :=
  {| Animated.task := []; Animated.tasks := [];
     Animated.modalVisible := false; Animated.selectedTask := None |}.

Definition Animated_run (ops : list operation) : Animated.State :=
  fold_left Animated_perform ops Animated_initial.

(** An operation whose text is a JavaScript string. *)
Definition operation_wf (o : operation) : Prop :=
  match o with
  | Create _ input => well_formed input
  | SaveEdit _ newText => well_formed newText
  | Toggle _ | Delete _ => True
  end.

(** A task whose id and text are JavaScript strings. *)
Definition task_wf (t : Task) : Prop :=
  well_formed (id t) ∧ well_formed (text t).

(** What [saveTaskEdit] and [checkOff] do to one task of the collection. *)
Definition edit (taskId newText : jsstring) (t : Task) : Task :=
  if decide (id t = taskId)
  then {| id := id t; text := newText; checked := checked t |}
  else t.

Definition flip (taskId : jsstring) (t : Task) : Task :=
  if decide (id t = taskId)
  then {| id := id t; text := text t; checked := negb (checked t) |}
  else t.

(** * Properties *)

(** ** The model at work *)

Example addTask_buy_milk :
  tasks (addTask 1700000000000 (onChangeText (str "buy milk") initial))
  = [ {| id := str "1700000000000"; text := str "buy milk"; checked := false |} ].
Proof. reflexivity. Qed.

Example parse_nested :
  JSON_parse (json_text "{ 'b': [1, true, null], '0': 'xA', 'b': -2.5e3 }")
  = inr (JObject [(str "0", JString (str "xA"));
                  (str "b", JNumber (str "-2.5e3"))]).
Proof. vm_compute. reflexivity. Qed.

Example load_after_save :
  let t := {| id := str "17"; text := [0x22; 0xD83D; 0xDE00; 0x0A; 0xDC00; 0x5C];
              checked := true |} in
  let w := snd (saveTasksToStorage (encode_tasks [t; t]) (fresh (stored None))) in
  tasksValue (snd (loadTasksFromStorage (fresh (storage w))))
  = encode_tasks [t; t].
Proof. vm_compute. reflexivity. Qed.

Example load_number :
  tasksValue (snd (loadTasksFromStorage (fresh (stored (Some (str "42"))))))
  = JNumber (str "42").
Proof. vm_compute. reflexivity. Qed.

(** ** Strings and ids *)

Lemma str_inj (a b : string) : str a = str b → a = b.
Proof.
  unfold str. intros H.
  rewrite <- (string_of_list_ascii_of_string a),
          <- (string_of_list_ascii_of_string b).
  f_equal. revert H.
  generalize (list_ascii_of_string a) (list_ascii_of_string b).
  induction l as [|x l IH]; intros [|y k] H; simplify_eq/=; try done.
  f_equal; [|by apply IH].
  rewrite <- (ascii_N_embedding x), <- (ascii_N_embedding y). congruence.
Qed.

Lemma toString_inj (a b : Z) : toString a = toString b → a = b.
Proof.
  unfold toString. intros H%str_inj.
  assert (Some (Z.to_int a) = Some (Z.to_int b)) as [= E].
  { rewrite <- !NilEmpty.isi. by rewrite H. }
  rewrite <- (DecimalZ.of_to a), <- (DecimalZ.of_to b). by rewrite E.
Qed.

#[global] Instance toString_Inj : Inj (=) (=) toString.
Proof. intros a b. apply toString_inj. Qed.

Lemma truthy_nonempty (s : jsstring) : truthy s = true ↔ s ≠ [].
Proof. destruct s; simpl; split; congruence. Qed.

Lemma truthy_empty (s : jsstring) : truthy s = false ↔ s = [].
Proof. destruct s; simpl; split; congruence. Qed.

(** ** The handlers on the collection *)

Lemma tasks_addTask (now : Z) (st : State) :
  tasks (addTask now st)
  = if truthy (trim (task st))
    then tasks st ++ [ {| id := toString now; text := task st; checked := false |} ]
    else tasks st.
Proof. unfold addTask. by destruct (truthy _). Qed.

Lemma tasks_Create (st : State) (now : Z) (text : jsstring) :
  tasks (perform st (Create now text))
  = if truthy (trim text)
    then tasks st ++ [ {| id := toString now; text := text; checked := false |} ]
    else tasks st.
Proof. simpl. by rewrite tasks_addTask. Qed.

Lemma tasks_Animated_addTask (now : Z) (input : jsstring) (st : Animated.State) :
  Animated.tasks (Animated.addTask now (Animated.setTask input st))
  = if truthy (trim input)
    then Animated.tasks st
         ++ [ {| Animated.id := toString now; Animated.text := input;
                 Animated.checked := false; Animated.hasAnimated := false |} ]
    else Animated.tasks st.
Proof. unfold Animated.addTask. simpl. by destruct (truthy _). Qed.

Lemma tasks_deleteTask (taskId : jsstring) (st : State) :
  tasks (deleteTask taskId st) = filter (λ item, id item ≠ taskId) (tasks st).
Proof. done. Qed.

Lemma tasks_saveTaskEdit (e : Task) (st : State) :
  tasks (saveTaskEdit e st) = edit (id e) (text e) <$> tasks st.
Proof. done. Qed.

Lemma tasks_checkOff (taskId : jsstring) (st : State) :
  tasks (checkOff taskId st) = flip taskId <$> tasks st.
Proof. done. Qed.

Lemma id_edit (taskId newText : jsstring) (t : Task) :
  id (edit taskId newText t) = id t.
Proof. unfold edit. by case_decide. Qed.

Lemma checked_edit (taskId newText : jsstring) (t : Task) :
  checked (edit taskId newText t) = checked t.
Proof. unfold edit. by case_decide. Qed.

Lemma id_flip (taskId : jsstring) (t : Task) : id (flip taskId t) = id t.
Proof. unfold flip. by case_decide. Qed.

Lemma flip_flip (taskId : jsstring) (t : Task) :
  flip taskId (flip taskId t) = t.
Proof.
  unfold flip. destruct t as [i x c]; simpl.
  destruct (decide (i = taskId)) as [E|E]; simpl.
  - destruct (decide (i = taskId)); [|done]. by rewrite negb_involutive.
  - by destruct (decide (i = taskId)).
Qed.

Lemma fmap_absent (f : Task → Task) (taskId : jsstring) (l : list Task) :
  (∀ t, id t ≠ taskId → f t = t) →
  taskId ∉ id <$> l → f <$> l = l.
Proof.
  intros Hf Hnot. rewrite <- (list_fmap_id l) at 2.
  apply list_fmap_ext. intros _ t Ht%list_elem_of_lookup_2.
  apply Hf. intros <-. apply Hnot. by apply list_elem_of_fmap_2.
Qed.

Lemma edit_other (taskId newText : jsstring) (t : Task) :
  id t ≠ taskId → edit taskId newText t = t.
Proof. intros. unfold edit. by rewrite decide_False. Qed.

Lemma flip_other (taskId : jsstring) (t : Task) :
  id t ≠ taskId → flip taskId t = t.
Proof. intros. unfold flip. by rewrite decide_False. Qed.

Lemma fmap_id_edit (taskId newText : jsstring) (l : list Task) :
  id <$> (edit taskId newText <$> l) = id <$> l.
Proof.
  rewrite <- list_fmap_compose. apply list_fmap_ext. intros. apply id_edit.
Qed.

Lemma fmap_id_flip (taskId : jsstring) (l : list Task) :
  id <$> (flip taskId <$> l) = id <$> l.
Proof.
  rewrite <- list_fmap_compose. apply list_fmap_ext. intros. apply id_flip.
Qed.

Lemma filter_absent (taskId : jsstring) (l : list Task) :
  taskId ∉ id <$> l → filter (λ item, id item ≠ taskId) l = l.
Proof.
  induction l as [|t l IH]; [done|]. rewrite fmap_cons, not_elem_of_cons.
  intros [Hne Hl]. rewrite filter_cons_True by congruence.
  by rewrite IH.
Qed.

(** ** Create *)

(** C3, as amended. A Create whose text trims to the empty string leaves the
    collection as it is. Any other Create appends exactly one task after the
    existing ones, which stay as they are: the new task has the text as
    typed, [checked = false], and as its id the decimal numeral of the clock
    reading of the call; that id is new to the collection exactly when no
    task of the collection already carries this numeral. The animated
    variant does the same and sets [hasAnimated = false]. *)
Theorem Create_appends_clock_id (st : State) (ast : Animated.State)
    (now : Z) (input : jsstring) :
  (trim input = [] →
     tasks (perform st (Create now input)) = tasks st
     ∧ Animated.tasks (Animated.addTask now (Animated.setTask input ast))
       = Animated.tasks ast)
  ∧ (trim input ≠ [] →
     (∃ t, tasks (perform st (Create now input)) = tasks st ++ [t]
           ∧ text t = input ∧ checked t = false
           ∧ id t = toString now
           ∧ (id t ∉ id <$> tasks st ↔ toString now ∉ id <$> tasks st))
     ∧ Animated.tasks (Animated.addTask now (Animated.setTask input ast))
       = Animated.tasks ast
         ++ [ {| Animated.id := toString now; Animated.text := input;
                 Animated.checked := false; Animated.hasAnimated := false |} ]).
Proof.
  rewrite tasks_Create, tasks_Animated_addTask. split.
  - intros ->%truthy_empty. done.
  - intros ->%truthy_nonempty. split; [|done].
    eexists. split; [done|]. simpl. tauto.
Qed.

Lemma Create_appends_clock_id_witness :
  tasks (perform initial (Create 1700000000000 (str "  "))) = tasks initial
  ∧ ∃ t, tasks (perform initial (Create 1700000000000 (str "buy milk")))
         = tasks initial ++ [t]
         ∧ text t = str "buy milk" ∧ checked t = false
         ∧ id t = toString 1700000000000
         ∧ (id t ∉ id <$> tasks initial
            ↔ toString 1700000000000 ∉ id <$> tasks initial).
Proof.
  split.
  - apply (proj1 (Create_appends_clock_id initial (Animated.mkState [] [] false None)
                    1700000000000 (str "  "))).
    reflexivity.
  - apply (proj2 (Create_appends_clock_id initial (Animated.mkState [] [] false None)
                    1700000000000 (str "buy milk"))).
    vm_compute. discriminate.
Defined.

(** C3 as stated fails: on a collection that holds a task made at clock
    reading 1000, a Create at the same reading appends a task whose id is
    already in the collection. *)
Lemma Create_id_not_fresh :
  let st := run [Create 1000 (str "walk dog")] in
  trim (str "buy milk") ≠ []
  ∧ ¬ ∃ t, tasks (perform st (Create 1000 (str "buy milk"))) = tasks st ++ [t]
           ∧ text t = str "buy milk" ∧ checked t = false
           ∧ id t ∉ id <$> tasks st.
Proof.
  split; [vm_compute; discriminate|].
  intros (t & Ht & _ & _ & Hfresh). apply Hfresh.
  vm_compute in Ht. simplify_eq. vm_compute. apply list_elem_of_here.
Qed.

(** C10. A Create whose text does not trim to the empty string stores the
    text exactly as typed, its leading and trailing white space included:
    [trim] only decides whether a task is made. The animated variant does
    the same. *)
Theorem Create_stores_raw_text (st : State) (ast : Animated.State)
    (now : Z) (input : jsstring) :
  trim input ≠ [] →
  text <$> last (tasks (perform st (Create now input))) = Some input
  ∧ length (tasks (perform st (Create now input))) = S (length (tasks st))
  ∧ Animated.text
      <$> last (Animated.tasks
                  (Animated.addTask now (Animated.setTask input ast)))
    = Some input.
Proof.
  rewrite tasks_Create, tasks_Animated_addTask. intros ->%truthy_nonempty.
  rewrite !last_snoc, length_app. simpl. repeat split; [lia].
Qed.

Lemma Create_stores_raw_text_witness :
  trim (str "  buy milk  ") = str "buy milk"
  ∧ text <$> last (tasks (perform initial (Create 7 (str "  buy milk  "))))
    = Some (str "  buy milk  ").
Proof.
  split; [reflexivity|].
  apply (Create_stores_raw_text initial (Animated.mkState [] [] false None)
           7 (str "  buy milk  ")).
  vm_compute. discriminate.
Defined.

(** ** SaveEdit *)

(** C5. SaveEdit keeps the length of the collection and rewrites it place by
    place: a task with the given id takes the new text verbatim, whatever it
    is, and keeps its id and its checked flag; every other task is left as it
    is. When the id occurs once, exactly that place changes; when it does
    not occur, the collection is unchanged. *)
Theorem SaveEdit_frame (st : State) (taskId newText : jsstring) :
  let st' := perform st (SaveEdit taskId newText) in
  length (tasks st') = length (tasks st)
  ∧ (∀ i t, tasks st !! i = Some t →
       tasks st' !! i
       = Some (if decide (id t = taskId)
               then {| id := id t; text := newText; checked := checked t |}
               else t))
  ∧ (∀ l1 t l2, tasks st = l1 ++ t :: l2 → id t = taskId →
       taskId ∉ id <$> l1 → taskId ∉ id <$> l2 →
       tasks st'
       = l1 ++ {| id := id t; text := newText; checked := checked t |} :: l2)
  ∧ (taskId ∉ id <$> tasks st → tasks st' = tasks st).
Proof.
  intros st'.
  assert (tasks st' = edit taskId newText <$> tasks st) as -> by done.
  clear st'. repeat split.
  - apply length_fmap.
  - intros i t Hi. rewrite list_lookup_fmap, Hi. done.
  - intros l1 t l2 -> Ht H1 H2. rewrite fmap_app, fmap_cons.
    rewrite (fmap_absent _ taskId l1), (fmap_absent _ taskId l2);
      auto using edit_other.
    unfold edit at 1. by rewrite decide_True.
  - apply fmap_absent. apply edit_other.
Qed.

Lemma SaveEdit_frame_witness :
  let st := run [Create 1 (str "a"); Create 2 (str "b"); Toggle (str "2")] in
  tasks (perform st (SaveEdit (str "2") []))
  = [ {| id := str "1"; text := str "a"; checked := false |};
      {| id := str "2"; text := []; checked := true |} ]
  ∧ tasks (perform st (SaveEdit (str "3") (str "c"))) = tasks st.
Proof.
  split.
  - apply (proj1 (proj2 (proj2 (SaveEdit_frame
      (run [Create 1 (str "a"); Create 2 (str "b"); Toggle (str "2")])
      (str "2") [])))
      [ {| id := str "1"; text := str "a"; checked := false |} ]
      {| id := str "2"; text := str "b"; checked := true |} []).
    + reflexivity.
    + reflexivity.
    + compute_done.
    + compute_done.
  - apply (proj2 (proj2 (proj2 (SaveEdit_frame
      (run [Create 1 (str "a"); Create 2 (str "b"); Toggle (str "2")])
      (str "3") (str "c"))))).
    compute_done.
Defined.

(** ** Toggle *)

(** C6. One Toggle negates the checked flag of a task with the given id;
    two Toggles with the same id give back the state they started from, so
    the flag returns to its original value; a Toggle with an id that no task
    has leaves the collection unchanged. *)
Theorem Toggle_twice (st : State) (taskId : jsstring) :
  (∀ i t, tasks st !! i = Some t → id t = taskId →
     checked <$> (tasks (perform st (Toggle taskId)) !! i)
     = Some (negb (checked t)))
  ∧ perform (perform st (Toggle taskId)) (Toggle taskId) = st
  ∧ (taskId ∉ id <$> tasks st → tasks (perform st (Toggle taskId)) = tasks st).
Proof.
  cbn [perform]. repeat split.
  - intros i t Hi Ht. rewrite tasks_checkOff, list_lookup_fmap, Hi. simpl.
    unfold flip. by rewrite decide_True.
  - destruct st as [x l m s]. unfold checkOff, setTasks; simpl. f_equal.
    rewrite <- list_fmap_compose. rewrite <- (list_fmap_id l) at 2.
    apply list_fmap_ext. intros _ t _. apply (flip_flip taskId t).
  - rewrite tasks_checkOff. apply fmap_absent. apply flip_other.
Qed.

Lemma Toggle_twice_witness :
  let st := run [Create 1 (str "a"); Create 2 (str "b")] in
  checked <$> (tasks (perform st (Toggle (str "2"))) !! 1%nat) = Some true
  ∧ tasks (perform st (Toggle (str "9"))) = tasks st.
Proof.
  split.
  - apply (proj1 (Toggle_twice (run [Create 1 (str "a"); Create 2 (str "b")])
                    (str "2")) 1%nat
             {| id := str "2"; text := str "b"; checked := false |});
      reflexivity.
  - apply (proj2 (proj2 (Toggle_twice
             (run [Create 1 (str "a"); Create 2 (str "b")]) (str "9")))).
    compute_done.
Defined.

(** ** Delete *)

(** C9. After a Delete no task of the collection has the given id; a second
    Delete with the same id changes nothing, and neither does a Delete with
    an id that no task has. *)
Theorem Delete_semantics (st : State) (taskId : jsstring) :
(taskId ∉ id <$> tasks (perform st (Delete taskId)))
  ∧ perform (perform st (Delete taskId)) (Delete taskId)
    = perform st (Delete taskId)
  ∧ (taskId ∉ id <$> tasks st → perform st (Delete taskId) = st).
Proof.
  assert (taskId ∉ id <$> tasks (perform st (Delete taskId))) as Hgone.
  { cbn [perform]. rewrite tasks_deleteTask.
    intros (t & -> & [Hne _]%list_elem_of_filter)%list_elem_of_fmap. done. }
  repeat split; [done| |].
  - revert Hgone. cbn [perform]. generalize (deleteTask taskId st). intros [x l m s] H.
    unfold deleteTask, setTasks; simpl in *. f_equal. by apply filter_absent.
  - destruct st as [x l m s]. cbn [perform].
    unfold deleteTask, setTasks; simpl. intros H.
    f_equal. by apply filter_absent.
Qed.

Lemma Delete_semantics_witness :
  let st := run [Create 1 (str "a"); Create 2 (str "b")] in
  perform st (Delete (str "9")) = st.
Proof.
  apply (proj2 (proj2 (Delete_semantics
           (run [Create 1 (str "a"); Create 2 (str "b")]) (str "9")))).
  compute_done.
Defined.

(** ** The edit draft *)

Lemma tasks_onChangeModalText (input : jsstring) (st : State) :
  tasks (onChangeModalText input st) = tasks st.
Proof. done. Qed.

Lemma tasks_openTaskModal (t : Task) (st : State) :
  tasks (openTaskModal t st) = tasks st.
Proof. done. Qed.

Lemma tasks_onPressCancel (st : State) : tasks (onPressCancel st) = tasks st.
Proof. done. Qed.

Lemma edit_session_tasks (t : Task) (input : jsstring) (st : State) :
  tasks (onPressSave (onChangeModalText input (openTaskModal t st)))
  = edit (id t) input <$> tasks st.
Proof. done. Qed.

(** C7. Opening the edit dialog on a task of the collection, replacing the
    draft text and pressing Save leaves a collection in which the task is
    still listed under its id, every task with that id has the new text,
    the checked flags and the ids are what they were, place by place, and
    tasks with another id are untouched. Neither opening the dialog nor
    typing into it changes the collection, and pressing Cancel instead of
    Save leaves the collection as it was before the dialog was opened. *)
Theorem edit_round_trip (st : State) (t : Task) (newText : jsstring) :
  t ∈ tasks st →
  let editing := onChangeModalText newText (openTaskModal t st) in
  (id t ∈ id <$> tasks (onPressSave editing))
  ∧ (∀ u, u ∈ tasks (onPressSave editing) → id u = id t → text u = newText)
  ∧ checked <$> tasks (onPressSave editing) = checked <$> tasks st
  ∧ id <$> tasks (onPressSave editing) = id <$> tasks st
  ∧ (∀ i u, tasks st !! i = Some u → id u ≠ id t →
       tasks (onPressSave editing) !! i = Some u)
  ∧ tasks editing = tasks st
  ∧ tasks (onPressCancel editing) = tasks st.
Proof.
  intros Ht editing. subst editing.
  rewrite tasks_onPressCancel, tasks_onChangeModalText, tasks_openTaskModal.
  rewrite edit_session_tasks. repeat split.
  - rewrite fmap_id_edit. by apply list_elem_of_fmap_2.
  - intros u (v & -> & Hv)%list_elem_of_fmap. unfold edit.
    case_decide; simpl; congruence.
  - rewrite <- list_fmap_compose. apply list_fmap_ext.
    intros. apply checked_edit.
  - apply fmap_id_edit.
  - intros i u Hi Hne. rewrite list_lookup_fmap, Hi. simpl.
    by rewrite edit_other.
Qed.

Lemma edit_round_trip_witness :
  let st := run [Create 1 (str "a"); Create 2 (str "b"); Toggle (str "2")] in
  let t := {| id := str "2"; text := str "b"; checked := true |} in
  tasks (onPressSave (onChangeModalText (str "new") (openTaskModal t st)))
  = [ {| id := str "1"; text := str "a"; checked := false |};
      {| id := str "2"; text := str "new"; checked := true |} ]
  ∧ tasks (onPressCancel (onChangeModalText (str "new") (openTaskModal t st)))
    = tasks st.
Proof.
  split; [reflexivity|].
  apply (edit_round_trip
           (run [Create 1 (str "a"); Create 2 (str "b"); Toggle (str "2")])
           {| id := str "2"; text := str "b"; checked := true |} (str "new")).
  compute_done.
Defined.

(** ** Sequences of operations: order and ids *)

Lemma run_snoc (ops : list operation) (o : operation) :
  run (ops ++ [o]) = perform (run ops) o.
Proof. unfold run. by rewrite fold_left_app. Qed.

Lemma ids_perform_sublist (st : State) (o : operation) :
  (id <$> tasks (perform st o)) `sublist_of` (id <$> tasks st) ++ created [o].
Proof.
  destruct o as [now input|taskId|taskId|taskId newText].
  - rewrite tasks_Create. unfold created; simpl.
    destruct (truthy (trim input)); simpl.
    + by rewrite fmap_app.
    + by rewrite app_nil_r.
  - cbn [perform]. rewrite tasks_checkOff, fmap_id_flip, app_nil_r. done.
  - cbn [perform]. rewrite tasks_deleteTask, app_nil_r.
    apply fmap_sublist, sublist_filter.
  - cbn [perform]. rewrite tasks_saveTaskEdit, fmap_id_edit, app_nil_r. done.
Qed.

(** The ids listed after a sequence of operations are, in their order, among
    the ids its Creates made, in the order they made them. *)
Lemma ids_sublist_created (ops : list operation) :
  (id <$> tasks (run ops)) `sublist_of` created ops.
Proof.
  induction ops as [|o ops IH] using rev_ind; [done|].
  rewrite run_snoc. unfold created. rewrite omap_app. fold (created ops).
  etrans; [apply ids_perform_sublist|]. by apply sublist_app.
Qed.

Lemma created_sublist_readings (ops : list operation) :
  created ops `sublist_of` (toString <$> readings ops).
Proof.
  induction ops as [|[now input| | |] ops IH]; simpl; try done.
  unfold created, readings in *; simpl.
  destruct (truthy (trim input)); simpl; by constructor.
Qed.

(** C8. Whatever the operations, the ids the collection lists are, in their
    order, among the ids the Creates made, in creation order. Operation by
    operation: Toggle and SaveEdit keep every task at its place (same
    length, same id at each place); Create leaves the list as it is or
    appends one task after it; Delete keeps the tasks with another id in the
    order they had, and takes away at most one task when ids are unique. *)
Theorem creation_order (ops : list operation) :
  (id <$> tasks (run ops)) `sublist_of` created ops
  ∧ (∀ st taskId,
       id <$> tasks (perform st (Toggle taskId)) = id <$> tasks st)
  ∧ (∀ st taskId newText,
       id <$> tasks (perform st (SaveEdit taskId newText)) = id <$> tasks st)
  ∧ (∀ st now input,
       tasks (perform st (Create now input)) = tasks st
       ∨ ∃ t, tasks (perform st (Create now input)) = tasks st ++ [t])
  ∧ (∀ st taskId,
       tasks (perform st (Delete taskId))
       = filter (λ item, id item ≠ taskId) (tasks st)
       ∧ tasks (perform st (Delete taskId)) `sublist_of` tasks st
       ∧ (NoDup (id <$> tasks st) →
          length (tasks st) ≤ S (length (tasks (perform st (Delete taskId)))))%nat).
Proof.
  split; [apply ids_sublist_created|]. repeat split.
  - intros. cbn [perform]. by rewrite tasks_checkOff, fmap_id_flip.
  - intros. cbn [perform]. by rewrite tasks_saveTaskEdit, fmap_id_edit.
  - intros. rewrite tasks_Create. destruct (truthy _); eauto.
  - cbn [perform]. rewrite tasks_deleteTask. apply sublist_filter.
  - cbn [perform]. rewrite tasks_deleteTask. generalize (tasks st).
    induction l as [|t l IH]; [simpl; lia|].
    rewrite fmap_cons, NoDup_cons. intros [Hnotin Hdup].
    destruct (decide (id t = taskId)) as [<-|Hne].
    + rewrite filter_cons_False by (intros H; by apply H).
      rewrite filter_absent by done. simpl. lia.
    + rewrite filter_cons_True by done. specialize (IH Hdup). simpl in *. lia.
Qed.

Lemma creation_order_witness :
  let ops := [Create 1 (str "a"); Create 2 (str "b"); Create 3 (str "c");
              Toggle (str "3"); Delete (str "2"); SaveEdit (str "1") []] in
  id <$> tasks (run ops) = [str "1"; str "3"]
  ∧ created ops = [str "1"; str "2"; str "3"]
  ∧ (length (tasks (run [Create 1 (str "a"); Create 2 (str "b")]))
     ≤ S (length (tasks (perform (run [Create 1 (str "a"); Create 2 (str "b")])
                           (Delete (str "2"))))))%nat.
Proof.
  split; [reflexivity|]. split; [reflexivity|].
  apply (proj2 (proj2 (proj2 (proj2 (proj2 (proj2 (creation_order []))))
           (run [Create 1 (str "a"); Create 2 (str "b")]) (str "2")))).
  compute_done.
Defined.

(** C1, as amended. When the clock readings of the Creates of a sequence are
    pairwise distinct, no two tasks of the resulting collection share an id,
    and a further Create at a reading not used before gets an id that no
    task of the collection has. *)
Theorem ids_unique_for_distinct_readings (ops : list operation) :
  NoDup (readings ops) →
  NoDup (id <$> tasks (run ops))
  ∧ (∀ now, now ∉ readings ops → toString now ∉ id <$> tasks (run ops)).
Proof.
  intros Hdup.
  assert ((id <$> tasks (run ops)) `sublist_of` (toString <$> readings ops))
    as Hsub.
  { etrans; [apply ids_sublist_created|apply created_sublist_readings]. }
  split.
  - eapply sublist_NoDup; [|exact Hsub]. by apply (NoDup_fmap_2 toString).
  - intros now Hnow Hin. apply Hnow.
    apply (list_elem_of_fmap_inj toString).
    eapply elem_of_sublist; [exact Hin|exact Hsub].
Qed.

Lemma ids_unique_for_distinct_readings_witness :
  let ops := [Create 1000 (str "a"); Toggle (str "1000");
              Create 1001 (str "b"); Delete (str "1000");
              Create 1002 (str "c")] in
  NoDup (id <$> tasks (run ops))
  ∧ (∀ now, now ∉ readings ops → toString now ∉ id <$> tasks (run ops)).
Proof.
  apply (ids_unique_for_distinct_readings
           [Create 1000 (str "a"); Toggle (str "1000");
            Create 1001 (str "b"); Delete (str "1000");
            Create 1002 (str "c")]).
  compute_done.
Defined.

(** C1 as stated fails: two Creates at the same clock reading leave two
    tasks with the same id in the collection. *)
Lemma same_instant_ids_collide :
  let ops := [Create 1000 (str "walk dog"); Create 1000 (str "buy milk")] in
  id <$> tasks (run ops) = [str "1000"; str "1000"]
  ∧ ¬ NoDup (id <$> tasks (run ops)).
Proof.
  split; [reflexivity|]. compute_done.
Qed.

(** ** [JSON.parse] after [JSON.stringify] *)

Local Ltac Zify.zify_post_hook ::= Z.to_euclidean_division_equations.

Lemma hex_value_hex_digit (n : N) : n < 16 → hex_value (hex_digit n) = Some n.
Proof.
  intros Hn. unfold hex_digit, hex_value.
  destruct (N.ltb_spec n 10).
  - replace ((48 <=? 48 + n) && (48 + n <=? 57)) with true.
    + f_equal. lia.
    + symmetry. apply andb_true_intro. split; apply N.leb_le; lia.
  - replace ((48 <=? 87 + n) && (87 + n <=? 57)) with false.
    + replace ((97 <=? 87 + n) && (87 + n <=? 102)) with true.
      * f_equal. lia.
      * symmetry. apply andb_true_intro. split; apply N.leb_le; lia.
    + symmetry. apply andb_false_iff. right. apply N.leb_gt. lia.
Qed.

Lemma hex4_UnicodeEscape (c : N) :
  c < 65536 →
  hex4 (hex_digit (c / 4096)) (hex_digit (c / 256 mod 16))
       (hex_digit (c / 16 mod 16)) (hex_digit (c mod 16)) = Some c.
Proof.
  intros Hc. unfold hex4.
  rewrite !hex_value_hex_digit by lia. simpl. f_equal. lia.
Qed.

Lemma short_escape_unescape (c e : N) :
  short_escape c = Some e → (e =? 117) = false ∧ unescape e = Some c
                            ∧ (e =? 34) || true = true.
Proof.
  unfold short_escape.
  repeat match goal with
         | |- context [c =? ?k] =>
           destruct (N.eqb_spec c k) as [->|?]; [intros [= <-]; by vm_compute|]
         end.
  done.
Qed.

Lemma short_escape_None (c : N) :
  short_escape c = None → (c =? 34) = false ∧ (c =? 92) = false.
Proof.
  unfold short_escape.
  repeat match goal with
         | |- context [c =? ?k] => destruct (N.eqb_spec c k) as [->|?]; [done|]
         end.
  done.
Qed.

Lemma parse_chars_escape (c : N) (s rest r : jsstring) :
  c < 65536 →
  parse_chars s = Some (r, rest) →
  parse_chars (UnicodeEscape c ++ s) = Some (c :: r, rest).
Proof.
  intros Hc Hs. unfold UnicodeEscape.
  cbn [app parse_chars]. 
  change (92 =? 34) with false. change (92 =? 92) with true.
  change (117 =? 117) with true. cbv iota.
  rewrite hex4_UnicodeEscape by done. by rewrite Hs.
Qed.

Lemma parse_chars_copy (c : N) (s rest r : jsstring) :
  (c =? 34) = false → (c =? 92) = false → (c <? 32) = false →
  parse_chars s = Some (r, rest) →
  parse_chars (c :: s) = Some (c :: r, rest).
Proof. intros H1 H2 H3 Hs. cbn [parse_chars]. by rewrite H1, H2, H3, Hs. Qed.

Lemma surrogate_plain (c : N) :
  is_leading_surrogate c || is_trailing_surrogate c = true →
  (c =? 34) = false ∧ (c =? 92) = false ∧ (c <? 32) = false.
Proof.
  unfold is_leading_surrogate, is_trailing_surrogate.
  rewrite orb_true_iff, !andb_true_iff, !N.leb_le.
  intros H. rewrite !N.eqb_neq, N.ltb_ge. lia.
Qed.

Lemma parse_quote_chars (s rest : jsstring) :
  well_formed s →
  parse_chars (quote_chars s ++ 34 :: rest) = Some (s, rest).
Proof.
  remember (length s) as n eqn:Hn. revert s Hn.
  induction n as [n IH] using lt_wf_ind. intros [|c s] Hn Hwf; [done|].
  apply Forall_cons in Hwf as [Hc Hwf]. simpl in Hn.
  cbn [quote_chars].
  destruct (short_escape c) as [e|] eqn:He.
  { apply short_escape_unescape in He as (Hu & Hun & _).
    cbn [app parse_chars]. change (92 =? 34) with false.
    change (92 =? 92) with true. cbv iota. rewrite Hu, Hun.
    by rewrite (IH (length s)) by (done || lia). }
  apply short_escape_None in He as [Hq Hb].
  destruct (c <? 32) eqn:Hctl.
  { rewrite <- app_assoc. apply parse_chars_escape; [done|].
    apply (IH (length s)); (done || lia). }
  destruct (is_leading_surrogate c) eqn:Hlead.
  { destruct s as [|d s].
    - rewrite <- (app_nil_r (UnicodeEscape c)), <- app_assoc.
      by apply parse_chars_escape.
    - destruct (is_trailing_surrogate d) eqn:Htrail.
      + apply Forall_cons in Hwf as [Hd Hwf]. simpl in Hn.
        destruct (surrogate_plain d) as (?&?&?); [by rewrite Htrail, orb_true_r|].
        cbn [app]. apply parse_chars_copy; try done.
        apply parse_chars_copy; try done.
        apply (IH (length s)); (done || lia).
      + rewrite <- app_assoc. apply parse_chars_escape; [done|].
        apply (IH (length (d :: s))); [simpl in *; lia|done|done]. }
  destruct (is_trailing_surrogate c) eqn:Htrail.
  { rewrite <- app_assoc. apply parse_chars_escape; [done|].
    apply (IH (length s)); (done || lia). }
  cbn [app]. apply parse_chars_copy; try done.
  apply (IH (length s)); (done || lia).
Qed.

(** *** The fuel of [JSON.parse] is never used up *)

Lemma skip_ws_length (s : jsstring) : (length (skip_ws s) ≤ length s)%nat.
Proof. induction s as [|c s IH]; simpl; [done|]. destruct (is_json_ws c); simpl; lia. Qed.

Lemma parse_chars_length (s r rest : jsstring) :
  parse_chars s = Some (r, rest) → (length rest < length s)%nat.
Proof.
  remember (length s) as n eqn:Hn. revert s r rest Hn.
  induction n as [n IH] using lt_wf_ind. intros [|c s] r rest Hn; [done|].
  cbn [parse_chars]. simpl in Hn.
  destruct (c =? 34); [intros [= _ <-]; lia|].
  destruct (c =? 92).
  - destruct s as [|e s]; [done|]. destruct (e =? 117).
    + destruct s as [|h1 [|h2 [|h3 [|h4 s]]]]; try done.
      destruct (hex4 _ _ _ _); [|done].
      destruct (parse_chars s) as [[r' rest']|] eqn:Hs; [|done].
      intros [= _ <-]. apply (IH (length s)) in Hs; simpl in *; lia.
    + destruct (unescape e); [|done].
      destruct (parse_chars s) as [[r' rest']|] eqn:Hs; [|done].
      intros [= _ <-]. apply (IH (length s)) in Hs; simpl in *; lia.
  - destruct (c <? 32); [done|].
    destruct (parse_chars s) as [[r' rest']|] eqn:Hs; [|done].
    intros [= _ <-]. apply (IH (length s)) in Hs; simpl in *; lia.
Qed.

Lemma span_digits_length (s : jsstring) :
  (length (span_digits s).2 ≤ length s)%nat.
Proof.
  induction s as [|c s IH]; simpl; [done|].
  destruct (is_digit c); [|simpl; lia].
  destruct (span_digits s); simpl in *. lia.
Qed.

Lemma strip_prefix_length (p s rest : jsstring) :
  strip_prefix p s = Some rest → (length rest ≤ length s)%nat.
Proof.
  revert s. induction p as [|a p IH]; intros [|b s]; simpl; try done.
  - intros [= <-]. done.
  - intros [= <-]. done.
  - destruct (a =? b); [|done]. intros H%IH. lia.
Qed.

Lemma parse_number_length (s numeral rest : jsstring) :
  parse_number s = Some (numeral, rest) → (length rest ≤ length s)%nat.
Proof.
  unfold parse_number.
  set (signed := match s with
                 | c :: s' => if c =? 45 then ([45], s') else ([], s)
                 | [] => ([], s)
                 end).
  assert (length signed.2 ≤ length s)%nat as Hsign.
  { subst signed. destruct s as [|c s']; [done|].
    destruct (c =? 45); simpl; lia. }
  destruct signed as [sign s1]. simpl in Hsign.
  intros H. apply bind_Some in H as ([int s2] & Hint & H).
  apply bind_Some in H as ([frac s3] & Hfrac & H).
  apply bind_Some in H as ([exp s4] & Hexp & H).
  injection H as _ <-.
  assert (length s2 ≤ length s1)%nat.
  { clear -Hint. destruct s1 as [|c s']; [done|].
    revert Hint. destruct (c =? 48).
    - intros [= _ <-]. simpl. lia.
    - destruct (is_digit c); [|done]. intros Hint.
      assert (span_digits (c :: s') = (int, s2)) as E by congruence.
      pose proof (span_digits_length (c :: s')) as Hlen.
      by rewrite E in Hlen. }
  assert (length s3 ≤ length s2)%nat.
  { clear -Hfrac. destruct s2 as [|c s']; [by simplify_eq|].
    revert Hfrac. destruct (c =? 46).
    - pose proof (span_digits_length s') as Hlen.
      destruct (span_digits s') as [ds r]. destruct (truthy ds); [|done].
      intros [= _ <-]. simpl in *. lia.
    - by intros [= _ <-]. }
  assert (length s4 ≤ length s3)%nat.
  { clear -Hexp. destruct s3 as [|c s']; [by simplify_eq|].
    revert Hexp. destruct ((c =? 101) || (c =? 69)); [|by intros [= _ <-]].
    set (esigned := match s' with
                    | d :: t => if (d =? 43) || (d =? 45) then ([d], t) else ([], s')
                    | [] => ([], s')
                    end) in *.
    assert (length esigned.2 ≤ length s')%nat as Hes.
    { subst esigned. destruct s' as [|d t]; [done|].
      destruct ((d =? 43) || (d =? 45)); simpl; lia. }
    destruct esigned as [esign s'']. simpl in Hes.
    pose proof (span_digits_length s'') as Hlen.
    destruct (span_digits s'') as [ds r]. destruct (truthy ds); [|done].
    intros [= _ <-]. simpl in *. lia. }
  lia.
Qed.

Lemma within_Malformed (s : jsstring) : within s Malformed.
Proof. by split. Qed.

Lemma within_Parsed (s rest : jsstring) (v : value) :
  (length rest ≤ length s)%nat → within s (Parsed v rest).
Proof. intros H. split; [done|]. by intros ? ? [= _ <-]. Qed.

Lemma within_mono (s s' : jsstring) (r : result value) :
  (length s' ≤ length s)%nat → within s' r → within s r.
Proof. intros H [H1 H2]. split; [done|]. intros v rest Hr. specialize (H2 v rest Hr). lia. Qed.

Lemma parse_fuel (fuel : nat) :
  (∀ s, (2 * length s + 1 ≤ fuel)%nat → within s (parse_value fuel s))
  ∧ (∀ acc s, (2 * length s + 2 ≤ fuel)%nat →
       within s (parse_elements fuel acc s))
  ∧ (∀ acc s, (2 * length s + 2 ≤ fuel)%nat →
       within s (parse_members fuel acc s)).
Proof.
  induction fuel as [|fuel (IHv & IHe & IHm)]; [repeat split; intros; lia|].
  split; [|split].
  - intros s Hfuel. cbn [parse_value].
    pose proof (skip_ws_length s) as Hws.
    destruct (skip_ws s) as [|c s']; [apply within_Malformed|]. simpl in Hws.
    destruct (c =? 123).
    { pose proof (skip_ws_length s') as Hws'.
      destruct (skip_ws s') as [|d s'']; [apply within_Malformed|].
      simpl in Hws'. destruct (d =? 125); [apply within_Parsed; lia|].
      apply (within_mono _ s'); [lia|]. apply IHm. lia. }
    destruct (c =? 91).
    { pose proof (skip_ws_length s') as Hws'.
      destruct (skip_ws s') as [|d s'']; [apply within_Malformed|].
      simpl in Hws'. destruct (d =? 93); [apply within_Parsed; lia|].
      apply (within_mono _ s'); [lia|]. apply IHe. lia. }
    destruct (c =? 34).
    { destruct (parse_chars s') as [[r rest]|] eqn:Hr; [|apply within_Malformed].
      apply parse_chars_length in Hr. apply within_Parsed. lia. }
    destruct (c =? 116).
    { destruct (strip_prefix _ _) as [rest|] eqn:Hr; [|apply within_Malformed].
      apply strip_prefix_length in Hr. apply within_Parsed. simpl in Hr. lia. }
    destruct (c =? 102).
    { destruct (strip_prefix _ _) as [rest|] eqn:Hr; [|apply within_Malformed].
      apply strip_prefix_length in Hr. apply within_Parsed. simpl in Hr. lia. }
    destruct (c =? 110).
    { destruct (strip_prefix _ _) as [rest|] eqn:Hr; [|apply within_Malformed].
      apply strip_prefix_length in Hr. apply within_Parsed. simpl in Hr. lia. }
    destruct (parse_number _) as [[numeral rest]|] eqn:Hr; [|apply within_Malformed].
    apply parse_number_length in Hr. apply within_Parsed. simpl in Hr. lia.
  - intros acc s Hfuel. cbn [parse_elements].
    destruct (IHv s) as [Hv1 Hv2]; [lia|].
    destruct (parse_value fuel s) as [v rest| |]; [|apply within_Malformed|done].
    specialize (Hv2 v rest eq_refl).
    pose proof (skip_ws_length rest) as Hws.
    destruct (skip_ws rest) as [|c rest']; [apply within_Malformed|].
    simpl in Hws. destruct (c =? 44).
    { apply (within_mono _ rest'); [lia|]. apply IHe. lia. }
    destruct (c =? 93); [apply within_Parsed; lia|apply within_Malformed].
  - intros acc s Hfuel. cbn [parse_members].
    pose proof (skip_ws_length s) as Hws.
    destruct (skip_ws s) as [|q s1]; [apply within_Malformed|]. simpl in Hws.
    destruct (q =? 34); [|apply within_Malformed].
    destruct (parse_chars s1) as [[k s2]|] eqn:Hk; [|apply within_Malformed].
    apply parse_chars_length in Hk.
    pose proof (skip_ws_length s2) as Hws2.
    destruct (skip_ws s2) as [|colon s3]; [apply within_Malformed|].
    simpl in Hws2. destruct (colon =? 58); [|apply within_Malformed].
    destruct (IHv s3) as [Hv1 Hv2]; [lia|].
    destruct (parse_value fuel s3) as [v rest| |]; [|apply within_Malformed|done].
    specialize (Hv2 v rest eq_refl).
    pose proof (skip_ws_length rest) as Hws3.
    destruct (skip_ws rest) as [|c rest']; [apply within_Malformed|].
    simpl in Hws3. destruct (c =? 44).
    { apply (within_mono _ rest'); [lia|]. apply IHm. lia. }
    destruct (c =? 125); [apply within_Parsed; lia|apply within_Malformed].
Qed.

Lemma parse_value_fuel (s : jsstring) :
  parse_value (2 * length s + 1) s ≠ OutOfFuel.
Proof. by apply (proj1 (parse_fuel _)). Qed.

(** *** Reading back what [stringify] wrote *)

Lemma forallb_well_formed (s : jsstring) :
  forallb (λ c, c <? 65536) s = true → well_formed s.
Proof.
  unfold well_formed. induction s as [|c s IH]; simpl; [done|].
  intros [Hc Hs]%andb_true_iff. constructor; [by apply N.ltb_lt|auto].
Qed.

Lemma stringify_head (v : value) :
  canonical v = true →
  ∃ c s0, stringify v = c :: s0 ∧ is_json_ws c = false ∧ (c =? 93) = false.
Proof. destruct v as [|[]| | | |]; simpl; try done; intros _; by eexists _, _. Qed.

Lemma join_comma_cons (p : jsstring) (parts : list (jsstring)) (rest : jsstring) (close : N) :
  join_comma (p :: parts) ++ close :: rest
  = p ++ match parts with
         | [] => close :: rest
         | _ :: _ => 44 :: (join_comma parts ++ close :: rest)
         end.
Proof. destruct parts; simpl; [done|]. by rewrite <- app_assoc. Qed.

Lemma has_key_absent (k : jsstring) (ps : list (jsstring * value)) :
  k ∉ fst <$> ps → has_key k ps = false.
Proof.
  induction ps as [|[k' v'] ps IH]; simpl; [done|].
  rewrite not_elem_of_cons. intros [Hne Hps]. by rewrite decide_False, IH.
Qed.

Lemma CreateDataProperty_new (k : jsstring) (v : value) (ps : list (jsstring * value)) :
  k ∉ fst <$> ps → array_index k = None →
  CreateDataProperty k v ps = ps ++ [(k, v)].
Proof.
  intros Hk Hi. unfold CreateDataProperty. by rewrite has_key_absent, Hi.
Qed.

Lemma member_text_head (p : jsstring * value) :
  member_text p = 34 :: (quote_chars (fst p) ++ 34 :: 58 :: stringify (snd p)).
Proof.
  unfold member_text, QuoteJSONString.
  by rewrite <- app_comm_cons, <- app_assoc.
Qed.

Lemma canonical_object (ps : list (jsstring * value)) :
  canonical (JObject ps) = true →
  Forall member_ok ps ∧ NoDup (fst <$> ps).
Proof.
  cbn [canonical]. intros [Hall Hdup]%andb_true_iff. split.
  - apply Forall_forall. intros p Hp.
    rewrite forallb_forall in Hall. apply list_elem_of_In, Hall in Hp.
    apply andb_true_iff in Hp as [[H1 H2]%andb_true_iff H3].
    split; [by apply forallb_well_formed|]. split; [|done].
    by apply bool_decide_eq_true in H2.
  - by apply bool_decide_eq_true in Hdup.
Qed.

Lemma canonical_array (vs : list value) :
  canonical (JArray vs) = true → Forall (λ v, canonical v = true) vs.
Proof.
  cbn [canonical]. intros Hall. apply Forall_forall. intros v Hv.
  rewrite forallb_forall in Hall. by apply Hall, list_elem_of_In.
Qed.

Lemma parse_value_array (fuel : nat) (c : N) (s0 : jsstring) :
  is_json_ws c = false → (c =? 93) = false →
  parse_value (S fuel) (91 :: c :: s0) = parse_elements fuel [] (c :: s0).
Proof.
  intros Hws Hc. cbn [parse_value skip_ws].
  change (is_json_ws 91) with false. cbv iota.
  change (91 =? 123) with false. change (91 =? 91) with true. cbv iota.
  cbn [skip_ws]. by rewrite Hws, Hc.
Qed.

Lemma parse_value_object (fuel : nat) (s0 : jsstring) :
  parse_value (S fuel) (123 :: 34 :: s0) = parse_members fuel [] (34 :: s0).
Proof. done. Qed.

Lemma parse_stringify (fuel : nat) :
  (∀ v rest, canonical v = true →
     agrees (parse_value fuel (stringify v ++ rest)) v rest)
  ∧ (∀ acc v vs rest, Forall (λ v, canonical v = true) (v :: vs) →
       agrees (parse_elements fuel acc
                 (join_comma (map stringify (v :: vs)) ++ 93 :: rest))
              (JArray (rev acc ++ v :: vs)) rest)
  ∧ (∀ acc p ps rest, Forall member_ok (p :: ps) →
       NoDup (fst <$> acc ++ p :: ps) →
       agrees (parse_members fuel acc
                 (join_comma (map member_text (p :: ps)) ++ 125 :: rest))
              (JObject (acc ++ p :: ps)) rest).
Proof.
  induction fuel as [|fuel (IHv & IHe & IHm)]; [by repeat split; left|].
  split; [|split].
  - intros v rest Hv. destruct v as [|[]|numeral|s|vs|ps].
    + by right.
    + by right.
    + by right.
    + done.
    + right. cbn [stringify]. unfold QuoteJSONString.
      rewrite <- app_comm_cons, <- app_assoc.
      cbn -[parse_chars]. by rewrite parse_quote_chars by by apply forallb_well_formed.
    + destruct vs as [|v vs]; [by right|].
      apply canonical_array in Hv.
      destruct (stringify_head v) as (c & s0 & Hhead & Hws & Hc);
        [by inversion Hv|].
      cbn [stringify]. rewrite <- app_comm_cons, <- app_assoc.
      change ([93] ++ rest) with (93 :: rest).
      specialize (IHe [] v vs rest Hv). revert IHe.
      cbn [map]. rewrite !join_comma_cons.
      rewrite Hhead. rewrite <- !app_comm_cons.
      by rewrite parse_value_array.
    + destruct ps as [|p ps]; [by right|].
      apply canonical_object in Hv as [Hok Hdup].
      cbn [stringify]. rewrite <- app_comm_cons, <- app_assoc.
      change ([125] ++ rest) with (125 :: rest).
      specialize (IHm [] p ps rest Hok Hdup). revert IHm.
      change (map (λ p, QuoteJSONString p.1 ++ 58 :: stringify p.2))
        with (map member_text).
      cbn [map]. rewrite !join_comma_cons, (member_text_head p).
      rewrite <- !app_comm_cons. by rewrite parse_value_object.
  - intros acc v vs rest Hall. cbn [map]. rewrite join_comma_cons.
    cbn [parse_elements].
    destruct (IHv v (match map stringify vs with
                     | [] => 93 :: rest
                     | _ :: _ => 44 :: (join_comma (map stringify vs) ++ 93 :: rest)
                     end)) as [->| ->]; [by inversion Hall|by left|].
    destruct vs as [|v' vs].
    + by right.
    + cbn [map skip_ws is_json_ws]. cbn -[join_comma parse_elements].
      replace (rev acc ++ v :: v' :: vs) with (rev (v :: acc) ++ v' :: vs)
        by (simpl; by rewrite <- app_assoc).
      apply (IHe (v :: acc) v' vs rest). by inversion Hall.
  - intros acc [k v] ps rest Hall Hdup. cbn [map]. rewrite join_comma_cons.
    apply Forall_cons in Hall as [(Hk & Hi & Hv) Hall]. simpl in Hk, Hi, Hv.
    rewrite member_text_head. cbn [fst snd].
    rewrite <- !app_comm_cons, <- !app_assoc. cbn [parse_members skip_ws].
    cbn -[parse_chars parse_value parse_members join_comma].
    rewrite parse_quote_chars by done.
    cbn -[parse_value parse_members join_comma].
    destruct (IHv v (match map member_text ps with
                     | [] => 125 :: rest
                     | _ :: _ => 44 :: (join_comma (map member_text ps) ++ 125 :: rest)
                     end)) as [->| ->]; [done|by left|].
    assert (CreateDataProperty k v acc = acc ++ [(k, v)]) as ->.
    { apply CreateDataProperty_new; [|done].
      rewrite fmap_app, fmap_cons in Hdup. simpl in Hdup.
      apply NoDup_app in Hdup as (_ & Hdup & _). intros Hin.
      apply (Hdup k Hin). apply list_elem_of_here. }
    destruct ps as [|p ps].
    + right. cbn. done.
    + cbn [map]. cbn -[join_comma parse_members].
      replace (acc ++ (k, v) :: p :: ps) with ((acc ++ [(k, v)]) ++ p :: ps)
        by by rewrite <- app_assoc.
      apply (IHm (acc ++ [(k, v)]) p ps rest); [done|].
      by rewrite <- app_assoc.
Qed.

Lemma JSON_parse_stringify (v : value) :
  canonical v = true → JSON_parse (stringify v) = inr v.
Proof.
  intros Hv. unfold JSON_parse.
  pose proof (parse_value_fuel (stringify v)) as Hfuel.
  destruct (proj1 (parse_stringify (2 * length (stringify v) + 1)) v [] Hv)
    as [H|H]; rewrite app_nil_r in H; [done|]. by rewrite H.
Qed.

Lemma stringify_truthy (v : value) :
  canonical v = true → truthy (stringify v) = true.
Proof. intros (c & s0 & -> & _)%stringify_head. done. Qed.

Lemma canonical_encode (t : Task) :
  well_formed (id t) → well_formed (text t) → canonical (encode t) = true.
Proof.
  intros Hi Ht. unfold encode. cbn [canonical forallb fst snd].
  assert (∀ s, well_formed s → forallb (λ c, c <? 65536) s = true) as Hwf.
  { intros s Hs. apply forallb_forall. intros c Hc%list_elem_of_In.
    apply N.ltb_lt. unfold well_formed in Hs. rewrite Forall_forall in Hs.
    by apply Hs. }
  rewrite (Hwf _ Hi), (Hwf _ Ht). by vm_compute.
Qed.

Lemma canonical_encode_tasks (ts : list Task) :
  Forall (λ t, well_formed (id t) ∧ well_formed (text t)) ts →
  canonical (encode_tasks ts) = true.
Proof.
  intros Hall. unfold encode_tasks. cbn [canonical].
  apply forallb_forall. intros v Hv%list_elem_of_In.
  apply list_elem_of_fmap in Hv as (t & -> & Ht).
  rewrite Forall_forall in Hall. destruct (Hall t Ht).
  by apply canonical_encode.
Qed.

#[global] Instance encode_inj : Inj (=) (=) encode.
Proof. intros [i x c] [i' x' c']. unfold encode; simpl. congruence. Qed.

#[global] Instance encode_tasks_inj : Inj (=) (=) encode_tasks.
Proof.
  intros ts ts'. unfold encode_tasks. intros [= H].
  revert H. apply (inj (fmap encode)).
Qed.

(** ** Load and Save *)

(** When the store takes the call, Save puts the text of the value under
    the key and reports nothing. *)
Lemma saveTasksToStorage_working (v : value) (w : World) :
  failing (storage w) = false →
  saveTasksToStorage v w
  = (Fulfilled tt,
     {| storage := {| items := <[str "tasks" := stringify v]> (items (storage w));
                      failing := false |};
        tasksValue := tasksValue w; console := console w |}).
Proof.
  intros Hw. unfold saveTasksToStorage, try_catch, setItem. by rewrite Hw.
Qed.

(** What Load does, case by case. *)
Lemma loadTasksFromStorage_cases (w : World) :
  loadTasksFromStorage w
  = if failing (storage w) then
      console_error (str "Error loading tasks from AsyncStorage:") StorageError w
    else
      match items (storage w) !! str "tasks" with
      | None => (Fulfilled tt, w)
      | Some s =>
        if truthy s then
          match JSON_parse s with
          | inr v => setTasksValue v w
          | inl e =>
            console_error (str "Error loading tasks from AsyncStorage:") e w
          end
        else (Fulfilled tt, w)
      end.
Proof.
  unfold loadTasksFromStorage, try_catch, bind, getItem, parse.
  destruct (failing (storage w)); [done|].
  destruct (items (storage w) !! str "tasks") as [s|]; [|done].
  destruct (truthy s); [|done]. by destruct (JSON_parse s).
Qed.

Lemma load_reads_saved (v : value) (w : World) :
  canonical v = true → failing (storage w) = false →
  let saved := snd (saveTasksToStorage v w) in
  loadTasksFromStorage (fresh (storage saved))
  = (Fulfilled tt,
     {| storage := storage saved; tasksValue := v; console := [] |}).
Proof.
  intros Hv Hw saved. subst saved.
  rewrite saveTasksToStorage_working by done.
  rewrite loadTasksFromStorage_cases. cbn [snd storage fresh failing items].
  rewrite lookup_insert_eq, stringify_truthy, JSON_parse_stringify by done.
  done.
Qed.

(** C4. On a store that takes the calls, saving a collection and then
    loading on a freshly mounted component settles without an error, logs
    nothing, and leaves in the tasks slot the value of the very same
    collection: the same tasks, in the same order, with the same id, text
    and checked fields. *)
Theorem save_load_round_trip (ts : list Task) (w : World) :
  Forall (λ t, well_formed (id t) ∧ well_formed (text t)) ts →
  failing (storage w) = false →
  let saved := snd (saveTasksToStorage (encode_tasks ts) w) in
  let loaded := loadTasksFromStorage (fresh (storage saved)) in
  fst loaded = Fulfilled tt
  ∧ console (snd loaded) = []
  ∧ tasksValue (snd loaded) = encode_tasks ts
  ∧ (∀ ts', tasksValue (snd loaded) = encode_tasks ts' → ts' = ts).
Proof.
  intros Hwf Hw saved loaded. subst loaded saved.
  rewrite load_reads_saved by auto using canonical_encode_tasks.
  cbn [fst snd console tasksValue]. repeat split.
  intros ts' H. symmetry. by apply encode_tasks_inj.
Qed.

Lemma save_load_round_trip_witness :
  let ts := [ {| id := str "1700000000000"; checked := true;
                 text := [0x22; 0xD83D; 0xDE00; 0x0A; 0xDC00; 0x5C; 0x20AC] |};
              {| id := str "1700000000001"; checked := false;
                 text := str "  buy milk  " |} ] in
  let saved := snd (saveTasksToStorage (encode_tasks ts) (fresh (stored None))) in
  let loaded := loadTasksFromStorage (fresh (storage saved)) in
  fst loaded = Fulfilled tt
  ∧ console (snd loaded) = []
  ∧ tasksValue (snd loaded) = encode_tasks ts
  ∧ (∀ ts', tasksValue (snd loaded) = encode_tasks ts' → ts' = ts).
Proof.
  apply (save_load_round_trip
           [ {| id := str "1700000000000"; checked := true;
                text := [0x22; 0xD83D; 0xDE00; 0x0A; 0xDC00; 0x5C; 0x20AC] |};
             {| id := str "1700000000001"; checked := false;
                text := str "  buy milk  " |} ]
           (fresh (stored None))).
  - repeat constructor; vm_compute; done.
  - reflexivity.
Defined.

(** C2, as amended. Load never raises: it settles fulfilled and leaves the
    store alone. When the store rejects the read, when nothing is stored
    under the key, when the stored text is empty, and when it does not
    parse, the tasks slot keeps the value it had, the empty collection on a
    freshly mounted component. A stored text that parses is put into the
    slot as parsed, whatever its shape. *)
Theorem load_resilient (w : World) :
  let content := items (storage w) !! str "tasks" in
  let loaded := loadTasksFromStorage w in
  fst loaded = Fulfilled tt
  ∧ storage (snd loaded) = storage w
  ∧ (failing (storage w) = true ∨ content = None ∨ content = Some []
     ∨ (∃ s, content = Some s ∧ JSON_parse s = inl SyntaxError) →
     tasksValue (snd loaded) = tasksValue w)
  ∧ (∀ s v, failing (storage w) = false → content = Some s → s ≠ [] →
       JSON_parse s = inr v →
       tasksValue (snd loaded) = v ∧ console (snd loaded) = console w).
Proof.
  intros content loaded. subst content loaded.
  rewrite loadTasksFromStorage_cases.
  destruct (failing (storage w)) eqn:Hw.
  { split; [done|]. split; [done|]. split; [done|]. by intros. }
  destruct (items (storage w) !! str "tasks") as [s|] eqn:Hs.
  2: { split; [done|]. split; [done|]. split; [done|]. by intros. }
  destruct (truthy s) eqn:Ht.
  2: { apply truthy_empty in Ht as ->.
       split; [done|]. split; [done|]. split; [done|].
       by intros s' v' _ [= <-]. }
  destruct (JSON_parse s) as [e|v] eqn:Hp.
  - split; [done|]. split; [done|]. split; [done|].
    intros s' v' _ [= <-] _. congruence.
  - split; [done|]. split; [done|]. split.
    + intros [H|[H|[H|(s' & [= <-] & Hs')]]]; try done.
      * injection H as ->. done.
      * congruence.
    + intros s' v' _ [= <-] _. split; [|done]. simpl. congruence.
Qed.

Lemma load_resilient_witness :
  JSON_parse (json_text "[{'id': '17', 'text': 'buy milk'") = inl SyntaxError
  ∧ tasksValue (snd (loadTasksFromStorage
      (fresh (stored (Some (json_text "[{'id': '17', 'text': 'buy milk'"))))))
    = JArray []
  ∧ tasksValue (snd (loadTasksFromStorage
      (fresh (stored (Some (json_text "[{'id': '17', 'text': 'buy milk'}]"))))))
    = JArray [JObject [(str "id", JString (str "17"));
                       (str "text", JString (str "buy milk"))]].
Proof.
  split; [vm_compute; reflexivity|]. split.
  - refine (proj1 (proj2 (proj2 (load_resilient
      (fresh (stored (Some (json_text "[{'id': '17', 'text': 'buy milk'"))))))) _).
    right. right. right.
    exists (json_text "[{'id': '17', 'text': 'buy milk'").
    split; vm_compute; reflexivity.
  - refine (proj1 (proj2 (proj2 (proj2 (load_resilient
      (fresh (stored (Some (json_text "[{'id': '17', 'text': 'buy milk'}]")))))))
      (json_text "[{'id': '17', 'text': 'buy milk'}]")
      (JArray [JObject [(str "id", JString (str "17"));
                        (str "text", JString (str "buy milk"))]])
      _ _ _ _)).
    + reflexivity.
    + vm_compute. reflexivity.
    + vm_compute. discriminate.
    + vm_compute. reflexivity.
Defined.

(** C2 as stated fails: a stored text that parses to something other than an
    array of tasks is put into the tasks slot as it is, so the collection
    after Load is not the empty collection. *)
Lemma load_installs_any_shape :
  let w := fresh (stored (Some (json_text "{'tasks': 42}"))) in
  JSON_parse (json_text "{'tasks': 42}")
  = inr (JObject [(str "tasks", JNumber (str "42"))])
  ∧ (∀ ts, encode_tasks ts ≠ JObject [(str "tasks", JNumber (str "42"))])
  ∧ tasksValue (snd (loadTasksFromStorage w))
    = JObject [(str "tasks", JNumber (str "42"))]
  ∧ tasksValue (snd (loadTasksFromStorage w)) ≠ JArray [].
Proof.
  split; [by vm_compute|]. split; [done|]. split; by vm_compute.
Qed.

(** ** The animated variant behaves as [App] does

    Forgetting [hasAnimated] turns every handler of the animated variant
    into the handler of [App], so what is proved of the collection of [App]
    holds of the collection of the animated variant. *)

Lemma plain_addTask (now : Z) (st : Animated.State) :
  plain_state (Animated.addTask now st) = addTask now (plain_state st).
Proof.
  destruct st as [x l m s]. unfold Animated.addTask, addTask, plain_state.
  simpl. destruct (truthy (trim x)); simpl; [|done].
  by rewrite fmap_app.
Qed.

Lemma plain_filter (taskId : jsstring) (l : list Animated.Task) :
  plain <$> filter (λ task, Animated.id task ≠ taskId) l
  = filter (λ item, id item ≠ taskId) (plain <$> l).
Proof.
  induction l as [|t l IH]; [done|].
  rewrite fmap_cons, (filter_cons _ t l), (filter_cons _ (plain t)).
  destruct (decide (Animated.id t ≠ taskId)) as [H|H].
  - rewrite decide_True by done. by rewrite fmap_cons, IH.
  - by rewrite decide_False.
Qed.

Lemma plain_deleteTask (taskId : jsstring) (st : Animated.State) :
  plain_state (Animated.deleteTask taskId st)
  = deleteTask taskId (plain_state st).
Proof.
  destruct st as [x l m s].
  unfold Animated.deleteTask, deleteTask, plain_state, setTasks; simpl.
  f_equal. apply plain_filter.
Qed.

Lemma plain_saveTaskEdit (e : Animated.Task) (st : Animated.State) :
  plain_state (Animated.saveTaskEdit e st)
  = saveTaskEdit (plain e) (plain_state st).
Proof.
  destruct st as [x l m s].
  unfold Animated.saveTaskEdit, saveTaskEdit, plain_state, setTasks,
    setModalVisible; simpl.
  f_equal. rewrite <- !list_fmap_compose. apply list_fmap_ext.
  intros _ t _. simpl. by destruct (decide (Animated.id t = Animated.id e)).
Qed.

Lemma plain_checkOff (taskId : jsstring) (st : Animated.State) :
  plain_state (Animated.checkOff taskId st) = checkOff taskId (plain_state st).
Proof.
  destruct st as [x l m s].
  unfold Animated.checkOff, checkOff, plain_state, setTasks; simpl.
  f_equal. rewrite <- !list_fmap_compose. apply list_fmap_ext.
  intros _ t _. simpl. by destruct (decide (Animated.id t = taskId)).
Qed.

Lemma canonical_Animated_encode_tasks (ts : list Animated.Task) :
  Forall (λ t, well_formed (Animated.id t) ∧ well_formed (Animated.text t)) ts →
  canonical (Animated.encode_tasks ts) = true.
Proof.
  intros Hall. unfold Animated.encode_tasks. cbn [canonical].
  apply forallb_forall. intros v Hv%list_elem_of_In.
  apply list_elem_of_fmap in Hv as (t & -> & Ht).
  rewrite Forall_forall in Hall. destruct (Hall t Ht) as [Hi Hx].
  unfold Animated.encode. cbn [canonical forallb fst snd].
  assert (∀ s, well_formed s → forallb (λ c, c <? 65536) s = true) as Hwf.
  { intros s Hs. apply forallb_forall. intros c Hc%list_elem_of_In.
    apply N.ltb_lt. unfold well_formed in Hs. rewrite Forall_forall in Hs.
    by apply Hs. }
  rewrite (Hwf _ Hi), (Hwf _ Hx). by vm_compute.
Qed.


(** ** How the handlers compose *)

Lemma state_eq (a b : State) :
  task a = task b → tasks a = tasks b → modalVisible a = modalVisible b →
  selectedTask a = selectedTask b → a = b.
Proof. destruct a, b; simpl; congruence. Qed.

Lemma flip_edit (i j newText : jsstring) (t : Task) :
  flip i (edit j newText t) = edit j newText (flip i t).
Proof.
  unfold flip, edit. destruct t as [k x c]; simpl.
  destruct (decide (k = j)), (decide (k = i)); simpl;
    repeat (rewrite ?decide_True, ?decide_False by done); done.
Qed.

Lemma flip_comm (i j : jsstring) (t : Task) :
  flip i (flip j t) = flip j (flip i t).
Proof.
  unfold flip. destruct t as [k x c]; simpl.
  destruct (decide (k = j)), (decide (k = i)); simpl;
    repeat (rewrite ?decide_True, ?decide_False by done); done.
Qed.

Lemma edit_edit_same (i x y : jsstring) (t : Task) :
  edit i y (edit i x t) = edit i y t.
Proof.
  unfold edit. destruct t as [k z c]; simpl.
  destruct (decide (k = i)); simpl;
    repeat (rewrite ?decide_True, ?decide_False by done); done.
Qed.

Lemma edit_edit_comm (i j x y : jsstring) (t : Task) :
  i ≠ j → edit i x (edit j y t) = edit j y (edit i x t).
Proof.
  intros Hij. unfold edit. destruct t as [k z c]; simpl.
  destruct (decide (k = j)), (decide (k = i)); simpl;
    repeat (rewrite ?decide_True, ?decide_False by done); congruence.
Qed.

Lemma fmap_fmap_ext (f g f' g' : Task → Task) (l : list Task) :
  (∀ t, f (g t) = f' (g' t)) → f <$> (g <$> l) = f' <$> (g' <$> l).
Proof.
  intros H. rewrite <- !list_fmap_compose. apply list_fmap_ext.
  intros _ t _. apply H.
Qed.

Lemma filter_fmap_id (taskId : jsstring) (f : Task → Task) (l : list Task) :
  (∀ t, id (f t) = id t) →
  filter (λ item, id item ≠ taskId) (f <$> l)
  = f <$> filter (λ item, id item ≠ taskId) l.
Proof.
  intros Hf. induction l as [|t l IH]; [done|].
  rewrite fmap_cons, (filter_cons _ (f t)), (filter_cons _ t).
  destruct (decide (id t ≠ taskId)) as [H|H].
  - rewrite decide_True by by rewrite Hf. by rewrite fmap_cons, IH.
  - rewrite decide_False by by rewrite Hf. done.
Qed.

(** X1. Toggling is independent of editing and of other toggles: a Toggle
    and a SaveEdit, and two Toggles, give the same state in either order. *)
Theorem toggle_commutes (st : State) (i j : jsstring) (e : Task) :
  checkOff i (saveTaskEdit e st) = saveTaskEdit e (checkOff i st)
  ∧ checkOff i (checkOff j st) = checkOff j (checkOff i st).
Proof.
  split; apply state_eq; try done.
  - rewrite tasks_checkOff, !tasks_saveTaskEdit, tasks_checkOff.
    apply fmap_fmap_ext, flip_edit.
  - rewrite !tasks_checkOff. apply fmap_fmap_ext, flip_comm.
Qed.

(** X2. Delete commutes with the other handlers on the collection:
    deleting before or after a Toggle, a SaveEdit or another Delete leaves
    the same state. *)
Theorem delete_commutes (st : State) (i j : jsstring) (e : Task) :
  deleteTask i (checkOff j st) = checkOff j (deleteTask i st)
  ∧ deleteTask i (saveTaskEdit e st) = saveTaskEdit e (deleteTask i st)
  ∧ deleteTask i (deleteTask j st) = deleteTask j (deleteTask i st).
Proof.
  repeat split; apply state_eq; try done.
  - rewrite tasks_deleteTask, !tasks_checkOff, tasks_deleteTask.
    apply filter_fmap_id, id_flip.
  - rewrite tasks_deleteTask, !tasks_saveTaskEdit, tasks_deleteTask.
    apply filter_fmap_id, id_edit.
  - rewrite !tasks_deleteTask. rewrite !list_filter_filter.
    apply list_filter_iff. tauto.
Qed.

(** X3. The last edit of a task wins: a SaveEdit after another one with the
    same id gives the state the second gives alone; edits of tasks with
    different ids give the same state in either order. *)
Theorem last_edit_wins (st : State) (e1 e2 : Task) :
  (id e1 = id e2 → saveTaskEdit e2 (saveTaskEdit e1 st) = saveTaskEdit e2 st)
  ∧ (id e1 ≠ id e2 →
     saveTaskEdit e2 (saveTaskEdit e1 st) = saveTaskEdit e1 (saveTaskEdit e2 st)).
Proof.
  split; intros H; apply state_eq; try done; rewrite !tasks_saveTaskEdit.
  - rewrite H, <- list_fmap_compose. apply list_fmap_ext.
    intros _ t _. apply edit_edit_same.
  - apply fmap_fmap_ext. intros t. apply edit_edit_comm. congruence.
Qed.

Lemma last_edit_wins_witness :
  let st := run [Create 1 (str "a"); Create 2 (str "b")] in
  saveTaskEdit (mkTask (str "2") (str "y") false)
    (saveTaskEdit (mkTask (str "2") (str "x") true) st)
  = saveTaskEdit (mkTask (str "2") (str "y") false) st
  ∧ saveTaskEdit (mkTask (str "2") (str "y") false)
      (saveTaskEdit (mkTask (str "1") (str "x") true) st)
    = saveTaskEdit (mkTask (str "1") (str "x") true)
        (saveTaskEdit (mkTask (str "2") (str "y") false) st).
Proof.
  split.
  - apply (proj1 (last_edit_wins (run [Create 1 (str "a"); Create 2 (str "b")])
                    (mkTask (str "2") (str "x") true)
                    (mkTask (str "2") (str "y") false))).
    reflexivity.
  - apply (proj2 (last_edit_wins (run [Create 1 (str "a"); Create 2 (str "b")])
                    (mkTask (str "1") (str "x") true)
                    (mkTask (str "2") (str "y") false))).
    vm_compute. discriminate.
Defined.

(** ** Which inputs make a task *)

Lemma trimStart_nil (s : jsstring) :
  trimStart s = [] ↔ forallb is_white_space s = true.
Proof.
  induction s as [|c s IH]; simpl; [done|].
  destruct (is_white_space c); simpl; [done|]. split; discriminate.
Qed.

Lemma trimStart_head (s : jsstring) (c : N) (s' : jsstring) :
  trimStart s = c :: s' → is_white_space c = false.
Proof.
  induction s as [|d s IH]; simpl; [done|].
  destruct (is_white_space d) eqn:Hd; [done|]. by intros [= <- _].
Qed.

Lemma forallb_rev (f : N → bool) (s : jsstring) :
  forallb f (rev s) = forallb f s.
Proof.
  induction s as [|c s IH]; simpl; [done|].
  rewrite forallb_app, IH. simpl. rewrite andb_true_r. apply andb_comm.
Qed.

Lemma trim_nil (s : jsstring) :
  trim s = [] ↔ forallb is_white_space s = true.
Proof.
  unfold trim, trimEnd. rewrite <- trimStart_nil. split.
  - intros H. apply (f_equal (@rev N)) in H. rewrite rev_involutive in H.
    simpl in H. apply trimStart_nil in H. rewrite forallb_rev in H.
    destruct (trimStart s) as [|c s'] eqn:Hs; [done|].
    apply trimStart_head in Hs. simpl in H. by rewrite Hs in H.
  - by intros ->.
Qed.

(** X4. A Create makes a task exactly when its text has a code unit that is
    not white space. A text of white space only (the empty text included)
    changes nothing and stays in the input; any other text adds one task and
    clears the input. *)
Theorem blank_input_rejected (st : State) (now : Z) (input : jsstring) :
  (forallb is_white_space input = true →
     perform st (Create now input) = onChangeText input st)
  ∧ (forallb is_white_space input = false →
     length (tasks (perform st (Create now input))) = S (length (tasks st))
     ∧ task (perform st (Create now input)) = []).
Proof.
  cbn [perform]. unfold addTask. cbn [task onChangeText setTask]. split.
  - intros H%trim_nil. by rewrite H.
  - intros H. destruct (truthy (trim input)) eqn:Ht.
    + simpl. rewrite length_app. simpl. split; [lia|done].
    + apply truthy_empty, trim_nil in Ht. congruence.
Qed.

Lemma blank_input_rejected_witness :
  perform initial (Create 5 [0x20; 0x09; 0x3000; 0x0A])
  = onChangeText [0x20; 0x09; 0x3000; 0x0A] initial
  ∧ length (tasks (perform initial (Create 5 [0x20; 0x2E; 0x20]))) = 1%nat
  ∧ task (perform initial (Create 5 [0x20; 0x2E; 0x20])) = [].
Proof.
  split.
  - apply (proj1 (blank_input_rejected initial 5 [0x20; 0x09; 0x3000; 0x0A])).
    reflexivity.
  - apply (proj2 (blank_input_rejected initial 5 [0x20; 0x2E; 0x20])).
    reflexivity.
Defined.

(** ** Create and Delete *)

(** X5. Deleting by the id a Create has just used removes the new task and,
    with it, every older task that carries the same id; when the id was new
    to the collection, the Delete undoes the Create. *)
Theorem create_then_delete (st : State) (now : Z) (input : jsstring) :
  tasks (perform (perform st (Create now input)) (Delete (toString now)))
  = filter (λ item, id item ≠ toString now) (tasks st)
  ∧ (toString now ∉ id <$> tasks st →
     tasks (perform (perform st (Create now input)) (Delete (toString now)))
     = tasks st).
Proof.
  assert (tasks (perform (perform st (Create now input)) (Delete (toString now)))
          = filter (λ item, id item ≠ toString now) (tasks st)) as ->.
  { cbn [perform]. rewrite tasks_deleteTask.
    change (addTask now (onChangeText input st))
      with (perform st (Create now input)).
    rewrite tasks_Create. destruct (truthy (trim input)); [|done].
    rewrite filter_app, filter_cons_False, filter_nil, app_nil_r; [done|].
    simpl. by intros H. }
  split; [done|]. apply filter_absent.
Qed.

Lemma create_then_delete_witness :
  let st := run [Create 1 (str "a"); Create 2 (str "b")] in
  tasks (perform (perform st (Create 3 (str "c"))) (Delete (toString 3)))
  = tasks st.
Proof.
  apply (proj2 (create_then_delete
                  (run [Create 1 (str "a"); Create 2 (str "b")]) 3 (str "c"))).
  compute_done.
Defined.

(** ** A draft that went stale *)

Lemma tasks_onPressSave_draft (t : Task) (input : jsstring)
    (f : State → State) (st : State) :
  selectedTask (f (onChangeModalText input (openTaskModal t st)))
  = selectedTask (onChangeModalText input (openTaskModal t st)) →
  tasks (onPressSave (f (onChangeModalText input (openTaskModal t st))))
  = edit (id t) input
      <$> tasks (f (onChangeModalText input (openTaskModal t st))).
Proof. unfold onPressSave. intros ->. done. Qed.

(** X6. Save writes the text of the draft and nothing else. When the task
    was toggled while its draft was open, Save keeps the new checked flag,
    not the one copied into the draft; when the task was deleted meanwhile,
    Save does not bring it back. *)
Theorem stale_draft (st : State) (t : Task) (input taskId : jsstring) :
  let editing := onChangeModalText input (openTaskModal t st) in
  tasks (onPressSave (checkOff taskId editing))
  = tasks (checkOff taskId (onPressSave editing))
  ∧ checked <$> tasks (onPressSave (checkOff taskId editing))
    = checked <$> tasks (checkOff taskId st)
  ∧ tasks (onPressSave (deleteTask (id t) editing))
    = tasks (deleteTask (id t) st).
Proof.
  intros editing. subst editing.
  rewrite (tasks_onPressSave_draft t input (checkOff taskId)) by done.
  rewrite (tasks_onPressSave_draft t input (deleteTask (id t))) by done.
  rewrite !tasks_checkOff, edit_session_tasks, !tasks_deleteTask.
  rewrite tasks_onChangeModalText, tasks_openTaskModal. repeat split.
  - symmetry. apply fmap_fmap_ext, flip_edit.
  - rewrite <- !list_fmap_compose. apply list_fmap_ext.
    intros _ u _. simpl. by rewrite checked_edit.
  - apply (fmap_absent _ (id t)); [apply edit_other|].
    intros (u & -> & [Hne _]%list_elem_of_filter)%list_elem_of_fmap. done.
Qed.

Lemma edit_own_text (l : list Task) (t : Task) :
  NoDup (id <$> l) → t ∈ l → edit (id t) (text t) <$> l = l.
Proof.
  induction l as [|u l IH]; [done|].
  rewrite !fmap_cons, NoDup_cons. intros [Hu Hdup] [->|Ht]%elem_of_cons.
  - f_equal.
    + unfold edit. rewrite decide_True by done. by destruct u.
    + apply (fmap_absent _ (id u)); [apply edit_other|done].
  - f_equal; [|by apply IH]. apply edit_other. intros E. apply Hu.
    rewrite E. by apply list_elem_of_fmap_2.
Qed.

(** X7. When ids are unique, opening the dialog on a task of the collection
    and pressing Save without typing leaves the collection as it is. *)
Theorem open_save_unchanged (st : State) (t : Task) :
  NoDup (id <$> tasks st) → t ∈ tasks st →
  tasks (onPressSave (openTaskModal t st)) = tasks st.
Proof.
  intros Hdup Ht.
  change (tasks (onPressSave (openTaskModal t st)))
    with (edit (id t) (text t) <$> tasks st).
  by apply edit_own_text.
Qed.

Lemma open_save_unchanged_witness :
  let st := run [Create 1 (str "a"); Create 2 (str "b")] in
  tasks (onPressSave (openTaskModal (mkTask (str "2") (str "b") false) st))
  = tasks st.
Proof.
  apply (open_save_unchanged (run [Create 1 (str "a"); Create 2 (str "b")])
           (mkTask (str "2") (str "b") false)); compute_done.
Defined.

(** ** Save *)

Lemma saveTasksToStorage_failing (v : value) (w : World) :
  failing (storage w) = true →
  saveTasksToStorage v w
  = (Fulfilled tt,
     {| storage := storage w; tasksValue := tasksValue w;
        console := console w
                   ++ [(str "Error saving tasks to AsyncStorage:", StorageError)] |}).
Proof.
  intros Hw. unfold saveTasksToStorage, try_catch, setItem. by rewrite Hw.
Qed.

(** X8. Save never raises and never touches the tasks slot. When the store
    rejects the write, the store stays as it was and one error is sent to
    the console; otherwise the text of the value replaces what was under
    the key, every other key keeps its value and nothing is logged. *)
Theorem save_never_raises (v : value) (w : World) :
  let saved := saveTasksToStorage v w in
  fst saved = Fulfilled tt
  ∧ tasksValue (snd saved) = tasksValue w
  ∧ (failing (storage w) = true →
     storage (snd saved) = storage w
     ∧ console (snd saved)
       = console w ++ [(str "Error saving tasks to AsyncStorage:", StorageError)])
  ∧ (failing (storage w) = false →
     items (storage (snd saved)) !! str "tasks" = Some (stringify v)
     ∧ (∀ key, key ≠ str "tasks" →
          items (storage (snd saved)) !! key = items (storage w) !! key)
     ∧ console (snd saved) = console w).
Proof.
  intros saved. subst saved. destruct (failing (storage w)) eqn:Hw.
  - rewrite saveTasksToStorage_failing by done. by repeat split.
  - rewrite saveTasksToStorage_working by done.
    cbn [fst snd storage items tasksValue console].
    split; [done|]. split; [done|]. split; [done|]. intros _.
    split; [apply lookup_insert_eq|]. split; [|done].
    intros key Hkey. by apply lookup_insert_ne.
Qed.

Lemma save_never_raises_witness :
  let w := {| storage := {| items := {[ str "theme" := str "dark" ]};
                            failing := false |};
              tasksValue := JArray []; console := [] |} in
  let broken := {| storage := {| items := ∅; failing := true |};
                   tasksValue := JArray []; console := [] |} in
  (items (storage (snd (saveTasksToStorage (JArray [JBool true]) w)))
     !! str "tasks" = Some (str "[true]")
   ∧ (∀ key, key ≠ str "tasks" →
        items (storage (snd (saveTasksToStorage (JArray [JBool true]) w))) !! key
        = items (storage w) !! key)
   ∧ console (snd (saveTasksToStorage (JArray [JBool true]) w)) = console w)
  ∧ (storage (snd (saveTasksToStorage (JArray [JBool true]) broken))
     = storage broken
     ∧ console (snd (saveTasksToStorage (JArray [JBool true]) broken))
       = console broken
         ++ [(str "Error saving tasks to AsyncStorage:", StorageError)]).
Proof.
  split.
  - apply (proj2 (proj2 (proj2 (save_never_raises (JArray [JBool true])
      {| storage := {| items := {[ str "theme" := str "dark" ]};
                       failing := false |};
         tasksValue := JArray []; console := [] |})))).
    reflexivity.
  - apply (proj1 (proj2 (proj2 (save_never_raises (JArray [JBool true])
      {| storage := {| items := ∅; failing := true |};
         tasksValue := JArray []; console := [] |})))).
    reflexivity.
Defined.

(** X9. The last Save wins: on a store that takes the writes, a Save after
    another one leaves the store the second Save alone leaves. *)
Theorem last_save_wins (v1 v2 : value) (w : World) :
  failing (storage w) = false →
  storage (snd (saveTasksToStorage v2 (snd (saveTasksToStorage v1 w))))
  = storage (snd (saveTasksToStorage v2 w)).
Proof.
  intros Hw. rewrite (saveTasksToStorage_working v1 w) by done.
  rewrite !saveTasksToStorage_working by done.
  cbn [snd storage items failing]. by rewrite insert_insert_eq.
Qed.

Lemma last_save_wins_witness :
  storage (snd (saveTasksToStorage (JArray [])
                  (snd (saveTasksToStorage (JArray [JNull]) (fresh (stored None))))))
  = storage (snd (saveTasksToStorage (JArray []) (fresh (stored None)))).
Proof.
  apply (last_save_wins (JArray [JNull]) (JArray []) (fresh (stored None))).
  reflexivity.
Defined.

(** ** Load *)

Lemma storage_load (w : World) :
  storage (snd (loadTasksFromStorage w)) = storage w.
Proof.
  rewrite loadTasksFromStorage_cases. destruct (failing (storage w)); [done|].
  destruct (items (storage w) !! str "tasks") as [s|]; [|done].
  destruct (truthy s); [|done]. by destruct (JSON_parse s).
Qed.

(** X10. Load can be repeated: a second Load leaves in the tasks slot what
    the first one left there, and neither changes the store. *)
Theorem load_twice (w : World) :
  let once := snd (loadTasksFromStorage w) in
  tasksValue (snd (loadTasksFromStorage once)) = tasksValue once
  ∧ storage (snd (loadTasksFromStorage once)) = storage w.
Proof.
  intros once. subst once. split; [|by rewrite !storage_load].
  rewrite (loadTasksFromStorage_cases (snd (loadTasksFromStorage w))).
  rewrite storage_load.
  rewrite (loadTasksFromStorage_cases w).
  destruct (failing (storage w)); [done|].
  destruct (items (storage w) !! str "tasks") as [s|]; [|done].
  destruct (truthy s); [|done]. by destruct (JSON_parse s).
Qed.

(** ** The animated variant on the store *)

Lemma Animated_encode_tasks_inj (ts ts' : list Animated.Task) :
  Animated.encode_tasks ts = Animated.encode_tasks ts' → ts = ts'.
Proof.
  unfold Animated.encode_tasks. intros [= H]. revert ts' H.
  induction ts as [|t ts IH]; intros [|t' ts'] H; simplify_eq/=; try done.
  f_equal; [|by apply IH]. destruct t, t'. simplify_eq/=. done.
Qed.

(** X11. The animated variant's collections survive Save and Load as well:
    on a store that takes the calls, loading after saving gives back the
    same tasks, in the same order, with the same four fields. *)
Theorem Animated_save_load_round_trip (ts : list Animated.Task) (w : World) :
  Forall (λ t, well_formed (Animated.id t) ∧ well_formed (Animated.text t)) ts →
  failing (storage w) = false →
  let saved := snd (saveTasksToStorage (Animated.encode_tasks ts) w) in
  let loaded := loadTasksFromStorage (fresh (storage saved)) in
  fst loaded = Fulfilled tt
  ∧ console (snd loaded) = []
  ∧ tasksValue (snd loaded) = Animated.encode_tasks ts
  ∧ (∀ ts', tasksValue (snd loaded) = Animated.encode_tasks ts' → ts' = ts).
Proof.
  intros Hwf Hw saved loaded. subst loaded saved.
  rewrite load_reads_saved by auto using canonical_Animated_encode_tasks.
  cbn [fst snd console tasksValue]. repeat split.
  intros ts' H. symmetry. by apply Animated_encode_tasks_inj.
Qed.

Lemma Animated_save_load_round_trip_witness :
  let ts := [ {| Animated.id := str "1700000000000";
                 Animated.text := [0x22; 0xD83D; 0xDE00; 0x0A; 0x5C];
                 Animated.checked := true; Animated.hasAnimated := false |} ] in
  let saved := snd (saveTasksToStorage (Animated.encode_tasks ts)
                      (fresh (stored None))) in
  let loaded := loadTasksFromStorage (fresh (storage saved)) in
  fst loaded = Fulfilled tt
  ∧ console (snd loaded) = []
  ∧ tasksValue (snd loaded) = Animated.encode_tasks ts
  ∧ (∀ ts', tasksValue (snd loaded) = Animated.encode_tasks ts' → ts' = ts).
Proof.
  apply (Animated_save_load_round_trip
           [ {| Animated.id := str "1700000000000";
                Animated.text := [0x22; 0xD83D; 0xDE00; 0x0A; 0x5C];
                Animated.checked := true; Animated.hasAnimated := false |} ]
           (fresh (stored None))).
  - repeat constructor; vm_compute; done.
  - reflexivity.
Defined.

(** ** The save effect keeps the store in step with the screen *)

Lemma session_snoc (ops : list operation) (o : operation) (s : Session) :
  session (ops ++ [o]) s = dispatch (session ops s) o.
Proof. unfold session. by rewrite fold_left_app. Qed.

Lemma ui_dispatch (s : Session) (o : operation) :
  ui (dispatch s o) = perform (ui s) o.
Proof. unfold dispatch. by destruct (callsSetTasks o). Qed.

Lemma ui_session (ops : list operation) (s : Session) :
  ui (session ops s) = fold_left perform ops (ui s).
Proof.
  induction ops as [|o ops IH] using rev_ind; [done|].
  by rewrite session_snoc, ui_dispatch, fold_left_app, IH.
Qed.

Lemma tasks_perform_idle (st : State) (o : operation) :
  callsSetTasks o = false → tasks (perform st o) = tasks st.
Proof.
  destruct o as [now input| | |]; try done. simpl callsSetTasks.
  intros H. by rewrite tasks_Create, H.
Qed.

Lemma dispatch_working (s : Session) (o : operation) :
  failing (store s) = false →
  failing (store (dispatch s o)) = false
  ∧ log (dispatch s o) = log s
  ∧ (callsSetTasks o = true ∨ synced s → synced (dispatch s o)).
Proof.
  intros Hw. unfold dispatch, saveEffect.
  destruct (callsSetTasks o) eqn:Ho.
  - rewrite saveTasksToStorage_working by done.
    cbn [snd storage console failing ui store log]. repeat split.
    intros _. unfold synced. cbn [ui store items]. apply lookup_insert_eq.
  - repeat split; try done. intros [|H]; [done|].
    unfold synced in *. cbn [ui store].
    by rewrite tasks_perform_idle.
Qed.

Lemma session_working (ops : list operation) (s : Session) :
  failing (store s) = false →
  failing (store (session ops s)) = false
  ∧ log (session ops s) = log s
  ∧ (Exists (λ o, callsSetTasks o = true) ops ∨ synced s →
     synced (session ops s)).
Proof.
  intros Hw. induction ops as [|o ops (IHw & IHl & IHs)] using rev_ind.
  - repeat split; try done. intros [H|H]; [by apply Exists_nil in H|done].
  - rewrite session_snoc.
    destruct (dispatch_working (session ops s) o IHw) as (Hw' & Hl' & Hs').
    split; [done|]. split; [congruence|].
    intros H. apply Hs'. rewrite Exists_app, Exists_cons in H.
    destruct H as [[H|[H|H]]|H]; [right; auto|by left|
                                   by apply Exists_nil in H|right; auto].
Qed.

(** X12. On a store that takes the writes, the save effect keeps the store
    in step with the screen: after every sequence of operations that starts
    in step, or in which some operation calls [setTasks], the store holds
    under the key the text of the collection the component shows, and
    nothing was logged. *)
Theorem store_follows_screen (ops : list operation) (s : Session) :
  failing (store s) = false →
  Exists (λ o, callsSetTasks o = true) ops ∨ synced s →
  items (store (session ops s)) !! str "tasks"
  = Some (stringify (encode_tasks (tasks (fold_left perform ops (ui s)))))
  ∧ log (session ops s) = log s.
Proof.
  intros Hw H. destruct (session_working ops s Hw) as (_ & Hl & Hs).
  split; [|done]. rewrite <- ui_session. by apply Hs.
Qed.

Lemma store_follows_screen_witness :
  let ops := [Create 1 (str "a"); Create 2 (str "  "); Toggle (str "1")] in
  let s := {| ui := initial; store := stored None; log := [] |} in
  items (store (session ops s)) !! str "tasks"
  = Some (stringify (encode_tasks (tasks (fold_left perform ops (ui s)))))
  ∧ log (session ops s) = log s.
Proof.
  apply (store_follows_screen
           [Create 1 (str "a"); Create 2 (str "  "); Toggle (str "1")]
           {| ui := initial; store := stored None; log := [] |}).
  - reflexivity.
  - left. apply Exists_cons_hd. reflexivity.
Defined.

(** *** A store that rejects the writes *)

Lemma dispatch_failing (s : Session) (o : operation) :
  failing (store s) = true →
  store (dispatch s o) = store s
  ∧ log (dispatch s o)
    = log s ++ (if callsSetTasks o
                then [(str "Error saving tasks to AsyncStorage:", StorageError)]
                else []).
Proof.
  intros Hw. unfold dispatch, saveEffect. destruct (callsSetTasks o).
  - by rewrite saveTasksToStorage_failing.
  - by rewrite app_nil_r.
Qed.

(** X13. When the store rejects every write, the component goes on working
    on its in-memory collection: the operations have the effect they have
    on a working store, the store stays as it was, and the console receives
    one save error for each operation that calls [setTasks]. *)
Theorem failing_store_is_ignored (ops : list operation) (s : Session) :
  failing (store s) = true →
  ui (session ops s) = fold_left perform ops (ui s)
  ∧ store (session ops s) = store s
  ∧ log (session ops s)
    = log s
      ++ replicate
           (length (filter (λ o, callsSetTasks o = true) ops))
           (str "Error saving tasks to AsyncStorage:", StorageError).
Proof.
  intros Hw. split; [apply ui_session|].
  induction ops as [|o ops [IHs IHl]] using rev_ind.
  - split; [done|]. simpl. by rewrite app_nil_r.
  - rewrite session_snoc.
    destruct (dispatch_failing (session ops s) o) as [Hs Hl]; [congruence|].
    split; [congruence|]. rewrite Hl, IHl, <- app_assoc. f_equal.
    rewrite filter_app, length_app, replicate_add. f_equal.
    rewrite filter_cons, filter_nil.
    destruct (callsSetTasks o); simpl; done.
Qed.

Lemma failing_store_is_ignored_witness :
  let ops := [Create 1 (str "a"); Create 2 (str "  "); Toggle (str "1")] in
  let s := {| ui := initial;
              store := {| items := ∅; failing := true |}; log := [] |} in
  tasks (ui (session ops s))
  = [ {| id := str "1"; text := str "a"; checked := true |} ]
  ∧ store (session ops s) = store s
  ∧ length (log (session ops s)) = 2%nat.
Proof.
  pose proof (failing_store_is_ignored
                [Create 1 (str "a"); Create 2 (str "  "); Toggle (str "1")]
                {| ui := initial;
                   store := {| items := ∅; failing := true |}; log := [] |}
                eq_refl) as (Hu & Hs & Hl).
  split; [by rewrite Hu|]. split; [exact Hs|]. by rewrite Hl.
Defined.

(** *** What a restart finds *)

Lemma well_formed_str (s : string) : well_formed (str s).
Proof.
  unfold well_formed, str. apply Forall_fmap, Forall_forall. intros a _.
  simpl. pose proof (N_ascii_bounded a). lia.
Qed.

Lemma perform_wf (st : State) (o : operation) :
  operation_wf o → Forall task_wf (tasks st) → Forall task_wf (tasks (perform st o)).
Proof.
  intros Ho Hst. destruct o as [now input|taskId|taskId|taskId newText].
  - rewrite tasks_Create. destruct (truthy (trim input)); [|done].
    apply Forall_app. split; [done|]. constructor; [|done].
    split; [apply well_formed_str|done].
  - cbn [perform]. rewrite tasks_checkOff. apply Forall_fmap.
    eapply Forall_impl; [exact Hst|]. intros t [Hi Hx]. unfold flip. simpl.
    by destruct (decide _).
  - cbn [perform]. rewrite tasks_deleteTask. apply Forall_forall.
    intros t [_ Ht]%list_elem_of_filter. rewrite Forall_forall in Hst. auto.
  - cbn [perform]. rewrite tasks_saveTaskEdit. apply Forall_fmap.
    eapply Forall_impl; [exact Hst|]. intros t [Hi Hx]. unfold edit. simpl.
    by destruct (decide _).
Qed.

Lemma fold_perform_wf (ops : list operation) (st : State) :
  Forall operation_wf ops → Forall task_wf (tasks st) →
  Forall task_wf (tasks (fold_left perform ops st)).
Proof.
  revert st. induction ops as [|o ops IH]; intros st Hops Hst; [done|].
  apply Forall_cons in Hops as [Ho Hops]. simpl.
  apply IH; [done|]. by apply perform_wf.
Qed.

(** X14. What is on screen is what a restart finds. Take a running
    component whose store takes the calls, and any sequence of operations in
    which at least one calls [setTasks] (or a store that was in step
    before): a component mounted afresh on the store then loads, without an
    error, exactly the collection the first one was showing. *)
Theorem restart_restores (ops : list operation) (s : Session) :
  failing (store s) = false →
  Forall task_wf (tasks (ui s)) →
  Forall operation_wf ops →
  Exists (λ o, callsSetTasks o = true) ops ∨ synced s →
  loadTasksFromStorage (fresh (store (session ops s)))
  = (Fulfilled tt,
     {| storage := store (session ops s);
        tasksValue := encode_tasks (tasks (ui (session ops s)));
        console := [] |}).
Proof.
  intros Hw Hwf Hops Hex.
  destruct (session_working ops s Hw) as (Hw' & _ & Hs).
  specialize (Hs Hex). unfold synced in Hs.
  assert (canonical (encode_tasks (tasks (ui (session ops s)))) = true) as Hc.
  { apply canonical_encode_tasks. rewrite ui_session.
    by apply fold_perform_wf. }
  rewrite loadTasksFromStorage_cases. cbn [fresh storage].
  rewrite Hw', Hs, stringify_truthy, JSON_parse_stringify by done.
  done.
Qed.

Lemma restart_restores_witness :
  let ops := [Create 1 (str "a"); Create 2 (str "b"); Toggle (str "1");
              Delete (str "2"); SaveEdit (str "1") [0x22; 0x0A; 0xD800]] in
  let s := session ops {| ui := initial; store := stored None; log := [] |} in
  loadTasksFromStorage (fresh (store s))
  = (Fulfilled tt,
     {| storage := store s; tasksValue := encode_tasks (tasks (ui s));
        console := [] |})
  ∧ tasks (ui s)
    = [ {| id := str "1"; text := [0x22; 0x0A; 0xD800]; checked := true |} ].
Proof.
  split; [|reflexivity].
  apply (restart_restores
           [Create 1 (str "a"); Create 2 (str "b"); Toggle (str "1");
            Delete (str "2"); SaveEdit (str "1") [0x22; 0x0A; 0xD800]]
           {| ui := initial; store := stored None; log := [] |}).
  - reflexivity.
  - constructor.
  - repeat constructor; vm_compute; done.
  - left. apply Exists_cons_hd. reflexivity.
Defined.

(** ** The animated variant *)

Lemma plain_perform (st : Animated.State) (o : operation) :
  plain_state (Animated_perform st o) = perform (plain_state st) o.
Proof.
  destruct o as [now input|taskId|taskId|taskId newText]; cbn [Animated_perform perform].
  - by rewrite plain_addTask.
  - apply plain_checkOff.
  - apply plain_deleteTask.
  - by rewrite plain_saveTaskEdit.
Qed.

Lemma Animated_run_snoc (ops : list operation) (o : operation) :
  Animated_run (ops ++ [o]) = Animated_perform (Animated_run ops) o.
Proof. unfold Animated_run. by rewrite fold_left_app. Qed.

(** X15. After the same operations, the collection of the animated variant
    is the collection of [App] with a fourth field on every task, and that
    field is [false] on every task: no handler ever sets [hasAnimated]. *)
Theorem Animated_run_plain (ops : list operation) :
  plain_state (Animated_run ops) = run ops
  ∧ Forall (λ t, Animated.hasAnimated t = false)
      (Animated.tasks (Animated_run ops)).
Proof.
  induction ops as [|o ops [IHp IHa]] using rev_ind; [by split|].
  rewrite Animated_run_snoc, run_snoc, plain_perform, IHp. split; [done|].
  revert IHa. generalize (Animated_run ops). intros st Hst.
  destruct o as [now input|taskId|taskId|taskId newText]; cbn [Animated_perform].
  - rewrite tasks_Animated_addTask. destruct (truthy (trim input)); [|done].
    apply Forall_app. split; [done|]. by constructor.
  - unfold Animated.checkOff. cbn [Animated.tasks Animated.setTasks].
    apply Forall_fmap. eapply Forall_impl; [exact Hst|].
    intros t Ht. simpl. by destruct (decide _).
  - unfold Animated.deleteTask. cbn [Animated.tasks Animated.setTasks].
    apply Forall_forall. intros t [_ Ht]%list_elem_of_filter.
    rewrite Forall_forall in Hst. auto.
  - unfold Animated.saveTaskEdit. simpl.
    apply Forall_fmap. eapply Forall_impl; [exact Hst|].
    intros t Ht. simpl. by destruct (decide _).
Qed.

(** ** The entry animation *)

Lemma onMount_Settle (taskId : jsstring) (refs : gmap (list N) bool) :
  AnimatedTaskItem.onMount taskId refs = AnimatedTaskItem.Settle ↔ refs !! taskId = Some true.
Proof.
  unfold AnimatedTaskItem.onMount. destruct (refs !! taskId) as [[]|]; split; congruence.
Qed.

Lemma react_lookup (refs : gmap (list N) bool) (e : AnimatedTaskItem.event) (taskId : jsstring) :
  AnimatedTaskItem.react refs e !! taskId = Some true
  ↔ e = AnimatedTaskItem.Completed taskId ∨ refs !! taskId = Some true.
Proof.
  destruct e as [i|i]; simpl.
  - unfold AnimatedTaskItem.markAsAnimated. destruct (decide (i = taskId)) as [->|Hne].
    + rewrite lookup_insert_eq. naive_solver.
    + rewrite lookup_insert_ne by done. naive_solver.
  - naive_solver.
Qed.

(** X16. An item skips its entry animation exactly when an entry animation
    for its id has completed before: starting from the empty [animatedRefs],
    a mount settles at once if and only if a completion for that id is
    among the events so far, whatever else was marked or mounted. *)
Theorem entry_animation_once (events : list AnimatedTaskItem.event) (taskId : jsstring) :
  AnimatedTaskItem.onMount taskId (fold_left AnimatedTaskItem.react events ∅) = AnimatedTaskItem.Settle
  ↔ AnimatedTaskItem.Completed taskId ∈ events.
Proof.
  rewrite onMount_Settle.
  induction events as [|e events IH] using rev_ind.
  - simpl. rewrite lookup_empty. split; [done|]. by intros ?%not_elem_of_nil.
  - rewrite fold_left_app. simpl. rewrite react_lookup, IH.
    rewrite elem_of_app, list_elem_of_singleton. naive_solver.
Qed.

(** ** Delete and the size of the collection *)

Lemma filter_removes_one (taskId : jsstring) (l : list Task) :
  NoDup (id <$> l) → taskId ∈ id <$> l →
  length l = S (length (filter (λ item, id item ≠ taskId) l)).
Proof.
  induction l as [|t l IH]; [by intros _ ?%not_elem_of_nil|].
  rewrite fmap_cons, NoDup_cons. intros [Ht Hdup] Hin.
  destruct (decide (id t = taskId)) as [<-|Hne].
  - rewrite filter_cons_False by (intros H; by apply H).
    by rewrite filter_absent.
  - rewrite filter_cons_True by done. simpl. f_equal. apply IH; [done|].
    apply elem_of_cons in Hin as [Hin|Hin]; [congruence|done].
Qed.

(** X17. When ids are unique and a task has the given id, a Delete makes the
    collection exactly one task shorter. *)
Theorem delete_removes_one (st : State) (taskId : jsstring) :
  NoDup (id <$> tasks st) → taskId ∈ id <$> tasks st →
  length (tasks st) = S (length (tasks (perform st (Delete taskId)))).
Proof.
  intros Hdup Hin. cbn [perform]. rewrite tasks_deleteTask.
  by apply filter_removes_one.
Qed.

Lemma delete_removes_one_witness :
  let st := run [Create 1 (str "a"); Create 2 (str "b"); Create 3 (str "c")] in
  length (tasks st) = S (length (tasks (perform st (Delete (str "2"))))).
Proof.
  apply (delete_removes_one
           (run [Create 1 (str "a"); Create 2 (str "b"); Create 3 (str "c")])
           (str "2")); compute_done.
Defined.
